(** * db2_compare.py: the schema comparison of [Db2Comparator]

    A shallow embedding of [src/db2_compare.py].  Python dictionaries are
    stdpp [gmap]s, Python sets are [gset]s, exceptions are the [Raise] branch
    of an error monad, and the methods that write report files or touch the
    connections run in a state-and-exception monad over the comparator's
    mutable fields and the sequence of file operations performed so far. *)

From stdpp Require Import base gmap sets list strings pretty sorting.

Local Open Scope string_scope.
Local Open Scope list_scope.
Local Open Scope stdpp_scope.

(** ** Values, records, exceptions *)

(** The values a catalog row holds: SQL NULL ([None]), character data and
    integers.  On these Python's [==] is structural equality. *)
Inductive value : Type :=
  | VNone
  | VStr (s : string)
  | VInt (z : Z).

Global Instance value_eq_dec : EqDecision value.
Proof. solve_decision. Defined.

Global Instance value_countable : Countable value.
Proof.
  refine (inj_countable'
    (λ v, match v with
          | VNone => inl ()
          | VStr s => inr (inl s)
          | VInt z => inr (inr z)
          end)
    (λ x, match x with
          | inl _ => VNone
          | inr (inl s) => VStr s
          | inr (inr z) => VInt z
          end) _).
  by intros [].
Defined.

(** [str(v)], as used by f-string interpolation. *)
Definition py_str (v : value) : string :=
  match v with
  | VNone => "None"
  | VStr s => s
  | VInt z => pretty z
  end.

(** [bool(v)]: the truth value Python gives to [v] in an [if]. *)
Definition py_truthy (v : value) : bool :=
  match v with
  | VNone => false
  | VStr s => negb (String.eqb s "")
  | VInt z => negb (z =? 0)%Z
  end.

(** [a != b] *)
Definition py_ne (a b : value) : bool := bool_decide (a ≠ b).

(** A row of a catalog query after [_fetch_all]: field name to value. *)
Abbreviation record := (gmap string value).

Inductive exn : Type :=
  | KeyError (key : value)
  | TypeError (msg : string)
  | DbError (msg : string).

Global Instance exn_eq_dec : EqDecision exn.
Proof. solve_decision. Defined.

Inductive result (A : Type) : Type :=
  | Ok (a : A)
  | Raise (e : exn).
Global Arguments Ok {A} a.
Global Arguments Raise {A} e.

Global Instance result_eq_dec `{EqDecision A} : EqDecision (result A).
Proof. solve_decision. Defined.

Global Instance result_ret : MRet result := λ A a, Ok a.
Global Instance result_bind : MBind result := λ A B f m,
  match m with
  | Ok a => f a
  | Raise e => Raise e
  end.

(** [d[key]] on a dictionary: [KeyError] when the key is absent. *)
Definition getitem (d : record) (key : string) : result value :=
  match d !! key with
  | Some v => Ok v
  | None => Raise (KeyError (VStr key))
  end.

(** [d[key]] on a grouping keyed by qualified name. *)
Definition dict_get {V : Type} (d : gmap string V) (key : string) : result V :=
  match d !! key with
  | Some v => Ok v
  | None => Raise (KeyError (VStr key))
  end.

(** [d[key]] on the per-table dictionaries keyed by column name. *)
Definition cols_get (d : gmap value record) (key : value) : result record :=
  match d !! key with
  | Some v => Ok v
  | None => Raise (KeyError key)
  end.

Definition has_fields (fields : list string) (r : record) : Prop :=
  Forall (λ f, is_Some (r !! f)) fields.

Global Instance has_fields_dec fields r : Decision (has_fields fields r).
Proof. unfold has_fields. apply _. Defined.

(** ** Iteration order of Python sets

    A [for] loop over a [set] visits its elements in an order fixed by the
    hash table, which the language leaves unspecified (and which string hash
    randomisation changes from one process to the next).  The functions that
    loop over a set take that order as a parameter: an enumeration of the set
    of qualified keys and one of the set of column names. *)
Record set_order : Type := SetOrder {
  iter_keys : gset string → list string;
  iter_cols : gset value → list value
}.

(** An order is admissible when it visits every element exactly once. *)
Definition keys_order_ok (o : set_order) : Prop :=
  ∀ X, iter_keys o X ≡ₚ elements X.

Definition cols_order_ok (o : set_order) : Prop :=
  ∀ X, iter_cols o X ≡ₚ elements X.

(** [sorted(xs)] on strings: ascending code-point order. *)
Definition sorted (xs : list string) : list string := merge_sort String.le xs.

(** ** Dictionaries of records

    A dictionary filled by one assignment [result[key] = r] per record, the
    key being computed from the record: the loop of [_group_by_proc] and its
    siblings, and the dictionary comprehensions of the table detail.  A later
    record replaces an earlier one under the same key. *)
Definition dict_step `{Countable K} (key_of : record → result K)
    (acc : result (gmap K record)) (r : record) : result (gmap K record) :=
  result ← acc;
  key ← key_of r;
  mret (<[key := r]> result).

Definition dict_of_records `{Countable K} (key_of : record → result K)
    (rs : list record) : result (gmap K record) :=
  foldl (dict_step key_of) (Ok ∅) rs.

(** ** Tables *)

(** [compare_keys] of [_table_definitions_differ]. *)
Definition table_compare_keys : list string :=
  ["colname"; "typename"; "length"; "scale"; "nulls";
   "default"; "identity"; "generated"].

(** The qualified key [f"{table['tabschema']}.{table['tabname']}"]. *)
Definition table_key (table : record) : result string :=
  s ← getitem table "tabschema";
  n ← getitem table "tabname";
  mret (py_str s +:+ "." +:+ py_str n).

(** [_group_by_table]: append each row to the list of its table. *)
Definition _group_by_table_step (acc : result (gmap string (list record)))
    (table : record) : result (gmap string (list record)) :=
  result ← acc;
  key ← table_key table;
  mret (<[key := default [] (result !! key) ++ [table]]> result).

Definition _group_by_table (tables : list record)
    : result (gmap string (list record)) :=
  foldl _group_by_table_step (Ok ∅) tables.

(** The inner loop of [_table_definitions_differ] over [compare_keys]:
    the list [differences] for one pair of columns. *)
Fixpoint column_differences (keys : list string) (b_col m_col : record)
    : result (list string) :=
  match keys with
  | [] => Ok []
  | key :: keys =>
      b ← getitem b_col key;
      m ← getitem m_col key;
      rest ← column_differences keys b_col m_col;
      mret (if py_ne b m
            then (key +:+ ": " +:+ py_str b +:+ " -> " +:+ py_str m) :: rest
            else rest)
  end.

(** The loop over [zip(baseline_cols, modified_cols)]. *)
Fixpoint table_columns_differ (cols : list (record * record)) : result bool :=
  match cols with
  | [] => Ok false
  | (b_col, m_col) :: cols =>
      differences ← column_differences table_compare_keys b_col m_col;
      if bool_decide (differences ≠ []) then Ok true
      else table_columns_differ cols
  end.

Definition _table_definitions_differ (baseline_cols modified_cols : list record)
    : result bool :=
  if bool_decide (length baseline_cols ≠ length modified_cols) then Ok true
  else table_columns_differ (zip baseline_cols modified_cols).

(** The loop of [_find_modified_tables] (and of its three siblings) over the
    set [common] of keys of both groupings, visited in the order [keys]. *)
Fixpoint find_modified_loop {V : Type} (differ : V → V → result bool)
    (baseline modified : gmap string V) (keys : list string)
    : result (list string) :=
  match keys with
  | [] => Ok []
  | key :: keys =>
      b ← dict_get baseline key;
      m ← dict_get modified key;
      d ← differ b m;
      rest ← find_modified_loop differ baseline modified keys;
      mret (if d : bool then key :: rest else rest)
  end.

Definition find_modified {V : Type} (differ : V → V → result bool)
    (o : set_order) (baseline modified : gmap string V)
    : result (list string) :=
  let common := dom baseline ∩ dom modified in
  find_modified_loop differ baseline modified (iter_keys o common).

Definition _find_modified_tables (o : set_order)
    (baseline modified : gmap string (list record)) : result (list string) :=
  find_modified _table_definitions_differ o baseline modified.

(** [set(modified.keys()) - set(baseline.keys())] and its mirror image, the
    expressions each [compare_*] method binds to its [new_*] and [dropped_*]
    variables. *)
Definition new_keys {V : Type} (baseline_dict modified_dict : gmap string V)
    : gset string :=
  dom modified_dict ∖ dom baseline_dict.

Definition dropped_keys {V : Type} (baseline_dict modified_dict : gmap string V)
    : gset string :=
  dom baseline_dict ∖ dom modified_dict.

(** ** Procedures, triggers and functions

    The source repeats one grouping, one comparison and one report writer
    for each of the three kinds, changing only the field names and the
    headings; the kind is a parameter here. *)
Inductive scalar_kind : Type := Procedure | Trigger | Function.

Global Instance scalar_kind_eq_dec : EqDecision scalar_kind.
Proof. solve_decision. Defined.

Definition schema_field (k : scalar_kind) : string :=
  match k with
  | Procedure => "procschema"
  | Trigger => "trigschema"
  | Function => "funcschema"
  end.

Definition name_field (k : scalar_kind) : string :=
  match k with
  | Procedure => "procname"
  | Trigger => "trigname"
  | Function => "funcname"
  end.

(** [compare_keys] of [_proc_definitions_differ],
    [_trigger_definitions_differ] and [_function_definitions_differ]. *)
Definition compare_keys (k : scalar_kind) : list string :=
  match k with
  | Procedure =>
      ["language"; "deterministic"; "nullcall"; "routine_text";
       "param_count"; "result_sets"]
  | Trigger =>
      ["trigtime"; "trigevent"; "granularity"; "valid"; "enabled";
       "trigger_text"; "tabschema"; "tabname"]
  | Function =>
      ["language"; "deterministic"; "nullcall"; "function_text";
       "return_type"; "param_count"; "function_type"]
  end.

Definition text_field (k : scalar_kind) : string :=
  match k with
  | Procedure => "routine_text"
  | Trigger => "trigger_text"
  | Function => "function_text"
  end.

(** The qualified key, e.g. [f"{proc['procschema']}.{proc['procname']}"]. *)
Definition scalar_key (k : scalar_kind) (r : record) : result string :=
  s ← getitem r (schema_field k);
  n ← getitem r (name_field k);
  mret (py_str s +:+ "." +:+ py_str n).

Definition group_by (k : scalar_kind) (rs : list record)
    : result (gmap string record) :=
  dict_of_records (scalar_key k) rs.

Definition _group_by_proc := group_by Procedure.
Definition _group_by_trigger := group_by Trigger.
Definition _group_by_function := group_by Function.

(** The list [differences] built by the loop over [compare_keys]. *)
Fixpoint scalar_differences (keys : list string) (b m : record)
    : result (list string) :=
  match keys with
  | [] => Ok []
  | key :: keys =>
      bv ← getitem b key;
      mv ← getitem m key;
      rest ← scalar_differences keys b m;
      mret (if py_ne bv mv then (key +:+ ": Changed") :: rest else rest)
  end.

(** [return bool(differences)] *)
Definition definitions_differ (k : scalar_kind) (b m : record) : result bool :=
  differences ← scalar_differences (compare_keys k) b m;
  mret (bool_decide (differences ≠ [])).

Definition _proc_definitions_differ := definitions_differ Procedure.
Definition _trigger_definitions_differ := definitions_differ Trigger.
Definition _function_definitions_differ := definitions_differ Function.

Definition find_modified_scalar (k : scalar_kind) (o : set_order)
    (baseline modified : gmap string record) : result (list string) :=
  find_modified (definitions_differ k) o baseline modified.

Definition _find_modified_procs := find_modified_scalar Procedure.
Definition _find_modified_triggers := find_modified_scalar Trigger.
Definition _find_modified_functions := find_modified_scalar Function.

(** ** The comparator's state and the report files *)

(** What the program does to the outside world, in order: files opened for
    writing, text written to them, the one ERROR-level log record, and
    connections closed.  (INFO-level progress messages are not recorded.) *)
Inductive event : Type :=
  | FileOpen (file : string)
  | FileWrite (file : string) (text : string)
  | LogError (msg : string)
  | DbClose (handle : nat).

Global Instance event_eq_dec : EqDecision event.
Proof. solve_decision. Defined.

(** The mutable fields of a [Db2Comparator], and the events so far. *)
Record state : Type := State {
  baseline_conn : option nat;
  modified_conn : option nat;
  trace : list event
}.

(** A method of the comparator: it may update the state and then either
    returns or raises; the state reached survives a raise. *)
Definition M (A : Type) : Type := state → state * result A.

Global Instance M_ret : MRet M := λ A a st, (st, Ok a).
Global Instance M_bind : MBind M := λ A B f m st,
  match m st with
  | (st', Ok a) => f a st'
  | (st', Raise e) => (st', Raise e)
  end.

Definition lift {A : Type} (r : result A) : M A := λ st, (st, r).

Definition emit (ev : event) : M unit := λ st,
  (State (baseline_conn st) (modified_conn st) (trace st ++ [ev]), Ok ()).

(** [open(file, 'w')] and [file.write(text)] *)
Definition open (file : string) : M unit := emit (FileOpen file).
Definition write (file text : string) : M unit := emit (FileWrite file text).

(** [for x in xs: body(x)] *)
Fixpoint for_each {A : Type} (body : A → M unit) (xs : list A) : M unit :=
  match xs with
  | [] => mret ()
  | x :: xs => body x ≫= λ _, for_each body xs
  end.

(** [if cond: body] *)
Definition when (cond : bool) (body : M unit) : M unit :=
  if cond then body else mret ().

(** [try: body finally: handler] *)
Definition try_finally {A : Type} (body : M A) (handler : M unit) : M A :=
  λ st,
    match body st with
    | (st', r) =>
        match handler st' with
        | (st'', Ok _) => (st'', r)
        | (st'', Raise e) => (st'', Raise e)
        end
    end.

(** The line feed that ends each line of a report. *)
Definition nl : string := String (Ascii.ascii_of_nat 10) EmptyString.

(** [len(xs)] inside an f-string *)
Definition py_len {A : Type} (xs : list A) : string := pretty (length xs).

(** [v > 0] *)
Definition py_gt0 (v : value) : result bool :=
  match v with
  | VInt z => Ok (0 <? z)%Z
  | VNone =>
      Raise (TypeError
        "'>' not supported between instances of 'NoneType' and 'int'")
  | VStr _ =>
      Raise (TypeError
        "'>' not supported between instances of 'str' and 'int'")
  end.

(** [v == 'c'] *)
Definition py_eq_str (v : value) (s : string) : bool :=
  bool_decide (v = VStr s).

(** *** Writing a table *)

(** The body of the loop of [_write_table_definition] for one column. *)
Definition write_column (file : string) (col : record) : M unit :=
  colname ← lift (getitem col "colname");
  typename ← lift (getitem col "typename");
  write file ("  " +:+ py_str colname +:+ " " +:+ py_str typename);;
  len ← lift (getitem col "length");
  pos ← lift (py_gt0 len);
  when pos (
    write file ("(" +:+ py_str len);;
    scale ← lift (getitem col "scale");
    scale_pos ← lift (if bool_decide (scale ≠ VNone) then py_gt0 scale
                      else Ok false);
    when scale_pos (write file ("," +:+ py_str scale));;
    write file ")");;
  nulls ← lift (getitem col "nulls");
  write file (" " +:+ py_str nulls);;
  dflt ← lift (getitem col "default");
  when (py_truthy dflt) (write file (" DEFAULT " +:+ py_str dflt));;
  identity ← lift (getitem col "identity");
  (if py_eq_str identity "Y"
   then write file " GENERATED ALWAYS AS IDENTITY"
   else
     generated ← lift (getitem col "generated");
     if py_eq_str generated "A" then write file " GENERATED ALWAYS"
     else if py_eq_str generated "D" then write file " GENERATED BY DEFAULT"
     else mret ());;
  write file nl.

Definition _write_table_definition (file : string) (columns : list record)
    : M unit :=
  for_each (write_column file) columns.

(** [{col['colname']: col for col in cols}]: a later column replaces an
    earlier one of the same name. *)
Definition cols_dict (cols : list record) : result (gmap value record) :=
  dict_of_records (λ col, getitem col "colname") cols.

(** The keys compared column by column in the detail section. *)
Definition detail_keys : list string :=
  ["typename"; "length"; "scale"; "nulls"; "default"; "identity"; "generated"].

(** The loop over [common_cols] that builds [modified_cols_list]. *)
Fixpoint modified_columns (baseline_cols_dict modified_cols_dict : gmap value record)
    (cols : list value) : result (list (value * list string)) :=
  match cols with
  | [] => Ok []
  | col :: cols =>
      b_col ← cols_get baseline_cols_dict col;
      m_col ← cols_get modified_cols_dict col;
      changes ← column_differences detail_keys b_col m_col;
      rest ← modified_columns baseline_cols_dict modified_cols_dict cols;
      mret (if bool_decide (changes ≠ []) then (col, changes) :: rest else rest)
  end.

(** The first half of [_write_table_differences_detail]: both definitions
    and the heading of the changes. *)
Definition write_detail_header (file : string)
    (baseline_cols modified_cols : list record) : M unit :=
  write file ("  Baseline columns:" +:+ nl);;
  _write_table_definition file baseline_cols;;
  write file (nl +:+ "  Modified columns:" +:+ nl);;
  _write_table_definition file modified_cols;;
  write file (nl +:+ "  Changes:" +:+ nl).

(** The second half: the column delta keyed by column name. *)
Definition write_column_changes (file : string) (o : set_order)
    (baseline_cols modified_cols : list record) : M unit :=
  baseline_cols_dict ← lift (cols_dict baseline_cols);
  modified_cols_dict ← lift (cols_dict modified_cols);
  let added_cols := dom modified_cols_dict ∖ dom baseline_cols_dict in
  let removed_cols := dom baseline_cols_dict ∖ dom modified_cols_dict in
  when (bool_decide (added_cols ≠ ∅)) (
    write file ("  Added columns:" +:+ nl);;
    for_each (λ col, write file ("    + " +:+ py_str col +:+ nl))
      (iter_cols o added_cols));;
  when (bool_decide (removed_cols ≠ ∅)) (
    write file ("  Removed columns:" +:+ nl);;
    for_each (λ col, write file ("    - " +:+ py_str col +:+ nl))
      (iter_cols o removed_cols));;
  let common_cols := dom baseline_cols_dict ∩ dom modified_cols_dict in
  modified_cols_list ←
    lift (modified_columns baseline_cols_dict modified_cols_dict
            (iter_cols o common_cols));
  when (bool_decide (modified_cols_list ≠ [])) (
    write file ("  Modified columns:" +:+ nl);;
    for_each (λ '(col, changes),
        write file ("    * " +:+ py_str col +:+ ":" +:+ nl);;
        for_each (λ change, write file ("      " +:+ change +:+ nl)) changes)
      modified_cols_list).

Definition _write_table_differences_detail (file : string) (o : set_order)
    (baseline_cols modified_cols : list record) : M unit :=
  write_detail_header file baseline_cols modified_cols;;
  write_column_changes file o baseline_cols modified_cols.

(** *** Writing a procedure, a trigger or a function *)

(** [file.write(f"  Label: {r['field']}\n")] *)
Definition write_field (file label : string) (r : record) (field : string)
    : M unit :=
  v ← lift (getitem r field);
  write file ("  " +:+ label +:+ ": " +:+ py_str v +:+ nl).

(** The common tail of the three definition writers: the optional remarks
    and the definition text. *)
Definition write_remarks_and_text (file : string) (r : record)
    (text_key : string) : M unit :=
  remarks ← lift (getitem r "remarks");
  when (py_truthy remarks)
    (write file ("  Remarks: " +:+ py_str remarks +:+ nl));;
  write file (nl +:+ "  Definition:" +:+ nl);;
  text ← lift (getitem r text_key);
  when (py_truthy text) (write file (py_str text +:+ nl)).

Definition _write_proc_definition (file : string) (proc : record) : M unit :=
  write_field file "Language" proc "language";;
  write_field file "Deterministic" proc "deterministic";;
  write_field file "Null Call" proc "nullcall";;
  write_field file "Parameter Count" proc "param_count";;
  write_field file "Result Sets" proc "result_sets";;
  write_remarks_and_text file proc "routine_text".

Definition _write_trigger_definition (file : string) (trigger : record)
    : M unit :=
  tabschema ← lift (getitem trigger "tabschema");
  tabname ← lift (getitem trigger "tabname");
  write file
    ("  Table: " +:+ py_str tabschema +:+ "." +:+ py_str tabname +:+ nl);;
  write_field file "Trigger Time" trigger "trigtime";;
  write_field file "Trigger Event" trigger "trigevent";;
  write_field file "Granularity" trigger "granularity";;
  write_field file "Valid" trigger "valid";;
  write_field file "Enabled" trigger "enabled";;
  write_remarks_and_text file trigger "trigger_text".

Definition _write_function_definition (file : string) (func : record)
    : M unit :=
  write_field file "Function Type" func "function_type";;
  write_field file "Return Type" func "return_type";;
  write_field file "Language" func "language";;
  write_field file "Deterministic" func "deterministic";;
  write_field file "Null Call" func "nullcall";;
  write_field file "Parameter Count" func "param_count";;
  write_remarks_and_text file func "function_text".

Definition write_definition (k : scalar_kind) : string → record → M unit :=
  match k with
  | Procedure => _write_proc_definition
  | Trigger => _write_trigger_definition
  | Function => _write_function_definition
  end.

(** The loop over [compare_keys] that lists the changed fields. *)
Definition write_change (k : scalar_kind) (file : string) (b m : record)
    (key : string) : M unit :=
  bv ← lift (getitem b key);
  mv ← lift (getitem m key);
  when (py_ne bv mv) (
    write file ("    * " +:+ key +:+ " changed" +:+ nl);;
    if bool_decide (key = text_field k)
    then write file ("      (See full definitions above)" +:+ nl)
    else
      write file ("      From: " +:+ py_str bv +:+ nl);;
      write file ("      To: " +:+ py_str mv +:+ nl)).

(** [_write_proc_differences] and its two siblings. *)
Definition write_differences (k : scalar_kind) (file : string) (b m : record)
    : M unit :=
  write file ("  Baseline:" +:+ nl);;
  write_definition k file b;;
  write file (nl +:+ "  Modified:" +:+ nl);;
  write_definition k file m;;
  write file (nl +:+ "  Changes:" +:+ nl);;
  for_each (write_change k file b m) (compare_keys k).

(** ** The database driver *)

Inductive catalog_query : Type :=
  | TableQuery
  | ProcQuery
  | TriggerQuery
  | FunctionQuery.

(** A row as [ibm_db.fetch_assoc] returns it: column name to value, with
    the names as the server spells them. *)
Abbreviation row := (list (string * value)).

(** [ibm_db], an external collaborator: [connect] yields a handle or raises,
    [exec_immediate] followed by the [fetch_assoc] loop yields the rows of a
    catalog query or raises. *)
Record ibm_db : Type := IbmDb {
  ibm_connect : string → result nat;
  ibm_exec_immediate : nat → catalog_query → result (list row)
}.

Definition ascii_lower (c : Ascii.ascii) : Ascii.ascii :=
  let n := Ascii.N_of_ascii c in
  if ((65 <=? n) && (n <=? 90))%N then Ascii.ascii_of_N (n + 32) else c.

(** [k.lower()] *)
Fixpoint str_lower (s : string) : string :=
  match s with
  | EmptyString => EmptyString
  | String c s => String (ascii_lower c) (str_lower s)
  end.

(** [{k.lower(): v for k, v in dictionary.items()}] *)
Definition lower_keys (dictionary : row) : record :=
  foldl (λ acc kv, <[str_lower kv.1 := kv.2]> acc) ∅ dictionary.

(** [while dictionary: result.append(...)]: the loop ends at the first
    falsy value that [fetch_assoc] returns. *)
Fixpoint fetch_loop (rows : list row) : list record :=
  match rows with
  | [] => []
  | dictionary :: rows =>
      match dictionary with
      | [] => []
      | _ :: _ => lower_keys dictionary :: fetch_loop rows
      end
  end.

Record DbConfig : Type := mkDbConfig {
  host : string;
  port : Z;
  database : string;
  username : string;
  password : string
}.

Definition get_connection_string (self : DbConfig) : string :=
  "DATABASE=" +:+ database self +:+ ";HOSTNAME=" +:+ host self +:+
  ";PORT=" +:+ pretty (port self) +:+ ";PROTOCOL=TCPIP;UID=" +:+
  username self +:+ ";PWD=" +:+ password self.

(** [str(e)] *)
Definition exn_str (e : exn) : string :=
  match e with
  | KeyError (VStr key) => "'" +:+ key +:+ "'"
  | KeyError key => py_str key
  | TypeError msg => msg
  | DbError msg => msg
  end.

(** ** The comparator *)

Definition get_state : M state := λ st, (st, Ok st).

Definition set_baseline_conn (h : nat) : M unit := λ st,
  (State (Some h) (modified_conn st) (trace st), Ok ()).

Definition set_modified_conn (h : nat) : M unit := λ st,
  (State (baseline_conn st) (Some h) (trace st), Ok ()).

(** [try: body except Exception as e: handler(e)] *)
Definition try_except {A : Type} (body : M A) (handler : exn → M A) : M A :=
  λ st,
    match body st with
    | (st', Ok a) => (st', Ok a)
    | (st', Raise e) => handler e st'
    end.

Definition raise {A : Type} (e : exn) : M A := λ st, (st, Raise e).

Definition query_of (k : scalar_kind) : catalog_query :=
  match k with
  | Procedure => ProcQuery
  | Trigger => TriggerQuery
  | Function => FunctionQuery
  end.

(** The words that tell the three summary reports apart. *)
Definition kind_title (k : scalar_kind) : string :=
  match k with
  | Procedure => "Stored Procedure"
  | Trigger => "Trigger"
  | Function => "Function"
  end.

Definition kind_plural (k : scalar_kind) : string :=
  match k with
  | Procedure => "procedures"
  | Trigger => "triggers"
  | Function => "functions"
  end.

Definition kind_Plural (k : scalar_kind) : string :=
  match k with
  | Procedure => "Procedures"
  | Trigger => "Triggers"
  | Function => "Functions"
  end.

Section Comparator.
Variable db : ibm_db.
Variable o : set_order.
Variables baseline_config modified_config : DbConfig.

Definition connect : M unit :=
  try_except
    (h ← lift (ibm_connect db (get_connection_string baseline_config));
     set_baseline_conn h;;
     h ← lift (ibm_connect db (get_connection_string modified_config));
     set_modified_conn h)
    (λ e,
      emit (LogError ("Failed to connect to databases: " +:+ exn_str e));;
      raise e).

Definition close : M unit :=
  self ← get_state;
  match baseline_conn self with
  | Some h => emit (DbClose h)
  | None => mret ()
  end;;
  match modified_conn self with
  | Some h => emit (DbClose h)
  | None => mret ()
  end.

Definition _fetch_all (connection : option nat) (query : catalog_query)
    : result (list record) :=
  match connection with
  | None => Raise (DbError "Supplied connection object Parameter is invalid")
  | Some h =>
      rows ← ibm_exec_immediate db h query;
      mret (fetch_loop rows)
  end.

(** One section of [tables_diff.log], written when the set or list it
    reports is [nonempty]: a heading, then every table of [tables] with
    what [body] writes for it. *)
Definition write_tables_section (file heading : string) (nonempty : bool)
    (tables : list string) (body : string → M unit) : M unit :=
  when nonempty (
    write file (nl +:+ heading +:+ nl);;
    for_each (λ table,
        write file (nl +:+ table +:+ ":" +:+ nl);;
        body table)
      tables).

Definition compare_tables : M unit :=
  self ← get_state;
  baseline_tables ← lift (_fetch_all (baseline_conn self) TableQuery);
  modified_tables ← lift (_fetch_all (modified_conn self) TableQuery);
  baseline_dict ← lift (_group_by_table baseline_tables);
  modified_dict ← lift (_group_by_table modified_tables);
  let f := "tables_diff.log" in
  open f;;
  let new_tables := new_keys baseline_dict modified_dict in
  let dropped_tables := dropped_keys baseline_dict modified_dict in
  modified_tables ← lift (_find_modified_tables o baseline_dict modified_dict);
  write f ("=== Table Comparison Summary ===" +:+ nl);;
  write f ("New tables: " +:+ pretty (size new_tables) +:+ nl);;
  write f ("Dropped tables: " +:+ pretty (size dropped_tables) +:+ nl);;
  write f ("Modified tables: " +:+ py_len modified_tables +:+ nl +:+ nl);;
  write_tables_section f "=== New Tables ==="
    (bool_decide (new_tables ≠ ∅)) (sorted (iter_keys o new_tables))
    (λ table,
      cols ← lift (dict_get modified_dict table);
      _write_table_definition f cols);;
  write_tables_section f "=== Dropped Tables ==="
    (bool_decide (dropped_tables ≠ ∅)) (sorted (iter_keys o dropped_tables))
    (λ table,
      cols ← lift (dict_get baseline_dict table);
      _write_table_definition f cols);;
  write_tables_section f "=== Modified Tables ==="
    (bool_decide (modified_tables ≠ [])) (sorted modified_tables)
    (λ table,
      b ← lift (dict_get baseline_dict table);
      m ← lift (dict_get modified_dict table);
      _write_table_differences_detail f o b m).

(** One list of the summary report. *)
Definition write_summary_list (file heading : string) (nonempty : bool)
    (keys : list string) : M unit :=
  when nonempty (
    write file (nl +:+ heading +:+ nl);;
    for_each (λ key, write file ("  " +:+ key +:+ nl)) keys).

(** One of the three detail reports, opened and written only when there
    is something to report. *)
Definition write_detail_file (file heading : string) (nonempty : bool)
    (keys : list string) (body : string → M unit) : M unit :=
  when nonempty (
    open file;;
    write file (heading +:+ nl);;
    for_each (λ key,
        write file (nl +:+ key +:+ ":" +:+ nl);;
        body key)
      keys).

(** [compare_procedures], [compare_triggers] and [compare_functions]. *)
Definition compare_scalar (k : scalar_kind) : M unit :=
  self ← get_state;
  baseline_rows ← lift (_fetch_all (baseline_conn self) (query_of k));
  modified_rows ← lift (_fetch_all (modified_conn self) (query_of k));
  baseline_dict ← lift (group_by k baseline_rows);
  modified_dict ← lift (group_by k modified_rows);
  let summary_file := kind_plural k +:+ "_summary.log" in
  let new_file := kind_plural k +:+ "_new.log" in
  let dropped_file := kind_plural k +:+ "_dropped.log" in
  let modified_file := kind_plural k +:+ "_modified.log" in
  let new := new_keys baseline_dict modified_dict in
  let dropped := dropped_keys baseline_dict modified_dict in
  modified ← lift (find_modified_scalar k o baseline_dict modified_dict);
  open summary_file;;
  write summary_file
    ("=== " +:+ kind_title k +:+ " Comparison Summary ===" +:+ nl);;
  write summary_file
    ("New " +:+ kind_plural k +:+ ": " +:+ pretty (size new) +:+ nl);;
  write summary_file
    ("Dropped " +:+ kind_plural k +:+ ": " +:+ pretty (size dropped) +:+ nl);;
  write summary_file
    ("Modified " +:+ kind_plural k +:+ ": " +:+ py_len modified
     +:+ nl +:+ nl);;
  write_summary_list summary_file ("New " +:+ kind_Plural k +:+ ":")
    (bool_decide (new ≠ ∅)) (sorted (iter_keys o new));;
  write_summary_list summary_file ("Dropped " +:+ kind_Plural k +:+ ":")
    (bool_decide (dropped ≠ ∅)) (sorted (iter_keys o dropped));;
  write_summary_list summary_file ("Modified " +:+ kind_Plural k +:+ ":")
    (bool_decide (modified ≠ [])) (sorted modified);;
  write_detail_file new_file ("=== New " +:+ kind_Plural k +:+ " ===")
    (bool_decide (new ≠ ∅)) (sorted (iter_keys o new))
    (λ key,
      r ← lift (dict_get modified_dict key);
      write_definition k new_file r);;
  write_detail_file dropped_file
    ("=== Dropped " +:+ kind_Plural k +:+ " ===")
    (bool_decide (dropped ≠ ∅)) (sorted (iter_keys o dropped))
    (λ key,
      r ← lift (dict_get baseline_dict key);
      write_definition k dropped_file r);;
  write_detail_file modified_file
    ("=== Modified " +:+ kind_Plural k +:+ " ===")
    (bool_decide (modified ≠ [])) (sorted modified)
    (λ key,
      b ← lift (dict_get baseline_dict key);
      m ← lift (dict_get modified_dict key);
      write_differences k modified_file b m).

Definition compare_procedures : M unit := compare_scalar Procedure.
Definition compare_triggers : M unit := compare_scalar Trigger.
Definition compare_functions : M unit := compare_scalar Function.

(** [main], from the construction of the comparator on: the [try] block
    and its [finally]. *)
Definition main_body : M unit :=
  connect;;
  compare_tables;;
  compare_procedures;;
  compare_triggers;;
  compare_functions.

Definition main : state * result unit :=
  try_finally main_body close (State None None []).
End Comparator.

(** ** Vocabulary of the statements *)

(** The values a column holds in the fields that the table comparison
    looks at, in the order of [table_compare_keys]. *)
Definition column_fields (col : record) : list (option value) :=
  (λ key, col !! key) <$> table_compare_keys.

(** The name of a column. *)
Definition column_name (col : record) : option value := col !! "colname".

(** Every record of a grouping of procedures, triggers or functions has the
    fields its comparison reads. *)
Definition scalar_grouping_ok (k : scalar_kind) (g : gmap string record)
    : Prop :=
  map_Forall (λ _ r, has_fields (compare_keys k) r) g.

(** Every column of every table of a grouping has the fields the table
    comparison reads. *)
Definition table_grouping_ok (g : gmap string (list record)) : Prop :=
  map_Forall (λ _ cols, Forall (has_fields table_compare_keys) cols) g.

(** What the partition claim says of one comparison by [differ]: the three
    categories exclude one another, and a key of both groupings is either
    changed, or left out because its two values compare as the same, never
    both. *)
Definition partition_of {V : Type} (differ : V → V → result bool)
    (baseline modified : gmap string V) (changed : list string) : Prop :=
  (new_keys baseline modified) ## (dropped_keys baseline modified) ∧
  (∀ key, key ∈ changed → key ∉ new_keys baseline modified) ∧
  (∀ key, key ∈ changed → key ∉ dropped_keys baseline modified) ∧
  (∀ key b m,
     baseline !! key = Some b → modified !! key = Some m →
     (key ∈ changed ∧ differ b m = Ok true) ∨
     ((key ∉ changed) ∧ differ b m = Ok false)).

(** Whether a list of differences is empty, which is all the table loop
    asks of it. *)
Definition any_difference (r : result (list string)) : result bool :=
  ds ← r; mret (bool_decide (ds ≠ [])).

(** The records of [rs] filed under the qualified key [key]. *)
Definition records_with_key (k : scalar_kind) (key : string)
    (rs : list record) : list record :=
  filter (λ r, scalar_key k r = Ok key) rs.

(** The two fields that make up the qualified key. *)
Definition key_fields (k : scalar_kind) : list string :=
  [schema_field k; name_field k].

(** ** Sample catalog rows *)

(** A procedure [SALES.TOTAL] as the catalog reports it, written in the
    given language. *)
Definition sample_proc (language : string) : record :=
  list_to_map
    [("procschema", VStr "SALES"); ("procname", VStr "TOTAL");
     ("language", VStr language); ("deterministic", VStr "N");
     ("nullcall", VStr "Y"); ("routine_text", VNone);
     ("param_count", VInt 2); ("result_sets", VInt 0);
     ("remarks", VNone)].

(** The events by which [close] ends a run that is in state [st]. *)
Definition closing (st : state) : list event :=
  DbClose <$> (option_list (baseline_conn st) ++ option_list (modified_conn st)).

(** The iteration order in which a set yields its elements as stdpp
    enumerates them: one admissible order among many. *)
Definition hash_order : set_order := SetOrder elements elements.

Definition baseline_cfg : DbConfig := mkDbConfig "db2.example" 50000 "B" "u" "p".
Definition modified_cfg : DbConfig := mkDbConfig "db2.example" 50000 "M2" "u" "p".

(** A driver whose handles are the lengths of the connection strings, and
    whose table query returns one row without a table name; the other three
    catalog queries return no rows. *)
Definition broken_tables_db : ibm_db :=
  IbmDb (λ s, Ok (String.length s))
        (λ _ q, match q with
                | TableQuery => Ok [[("TABSCHEMA", VStr "SALES")]]
                | _ => Ok []
                end).

(** The run ended by the exception [e] in state [st]: [main] lets [e]
    through, and after the events of [st] it has only closed the
    connections. *)
Definition ends_after (db : ibm_db) (o : set_order)
    (baseline_config modified_config : DbConfig) (st : state) (e : exn)
    : Prop :=
  main db o baseline_config modified_config =
    (State (baseline_conn st) (modified_conn st) (trace st ++ closing st),
     Raise e).

(** The state of the sample run once both connections are open. *)
Definition connected : state := State (Some 69) (Some 70) [].

(** A nullable column without default, as the catalog reports it. *)
Definition sample_column (name typename : string) (length : Z) : record :=
  list_to_map
    [("colname", VStr name); ("typename", VStr typename);
     ("length", VInt length); ("scale", VInt 0); ("nulls", VStr "Y");
     ("default", VNone); ("identity", VStr "N"); ("generated", VStr "")].

(** A table with the one column [ID], and the same table after the columns
    [A], [B] and [C] were added to it. *)
Definition narrow_table : list record := [sample_column "ID" "INTEGER" 4].

Definition wide_table : list record :=
  [sample_column "ID" "INTEGER" 4; sample_column "A" "INTEGER" 4;
   sample_column "B" "INTEGER" 4; sample_column "C" "INTEGER" 4].

(** A second admissible iteration order: that of [hash_order], backwards. *)
Definition reversed_order : set_order :=
  SetOrder (λ X, reverse (elements X)) (λ X, reverse (elements X)).

(** Two groupings of procedures that differ in the language of
    [SALES.TOTAL], and two groupings of tables that differ in the columns of
    [SALES.T]. *)
Definition procs_baseline : gmap string record :=
  {[ "SALES.TOTAL" := sample_proc "SQL" ]}.

Definition procs_modified : gmap string record :=
  {[ "SALES.TOTAL" := sample_proc "C" ]}.

Definition tables_baseline : gmap string (list record) :=
  {[ "SALES.T" := narrow_table ]}.

Definition tables_modified : gmap string (list record) :=
  {[ "SALES.T" := wide_table ]}.

(** A table of two columns, and the same two columns the other way round. *)
Definition table_ab : list record :=
  [sample_column "A" "INTEGER" 4; sample_column "B" "CHAR" 1].

Definition table_ba : list record :=
  [sample_column "B" "CHAR" 1; sample_column "A" "INTEGER" 4].

(** ** Vocabulary of the further properties *)

(** The two fields that make up the qualified key of a table. *)
Definition table_key_fields : list string := ["tabschema"; "tabname"].

(** The catalog rows of [tables] that belong to the table [key], in the
    order of the input. *)
Definition rows_of_table (key : string) (tables : list record) : list record :=
  filter (λ t, table_key t = Ok key) tables.

(** The first of [keys] that [b] or [m] lacks, if any. *)
Definition first_missing (keys : list string) (b m : record) : option string :=
  head (filter (λ key, b !! key = None ∨ m !! key = None) keys).

(** Whether some field of [keys] has unequal values in [b] and [m]. *)
Definition some_field_differs (keys : list string) (b m : record) : bool :=
  bool_decide (Exists (λ key, b !! key ≠ m !! key) keys).

(** The rows of the table query for the table [SALES.T] of [wide_table]. *)
Definition wide_table_rows : list record :=
  (λ col, <["tabschema" := VStr "SALES"]> (<["tabname" := VStr "T"]> col))
    <$> wide_table.


(** One row of the table query as the server spells it, without the type
    of the column; one row of the procedure query with the names only; and a
    driver that answers with them. *)
Definition upper_case_rows : list row :=
  [[("TABSCHEMA", VStr "SALES"); ("TABNAME", VStr "T");
    ("COLNAME", VStr "ID"); ("ColNo", VInt 0)]].

Definition bare_proc_rows : list row :=
  [[("PROCSCHEMA", VStr "SALES"); ("PROCNAME", VStr "TOTAL")]].

Definition upper_case_db : ibm_db :=
  IbmDb (λ s, Ok (String.length s))
        (λ _ q, match q with
                | TableQuery => Ok upper_case_rows
                | ProcQuery => Ok bare_proc_rows
                | _ => Ok []
                end).



(** An event that opens or writes one of [files]. *)
Definition about_files (files : list string) (ev : event) : Prop :=
  match ev with
  | FileOpen f | FileWrite f _ => f ∈ files
  | LogError _ | DbClose _ => False
  end.

(** A method that, from every state, appends events satisfying [P] to the
    trace, whether it returns or raises. *)
Definition emits {A : Type} (P : event → Prop) (m : M A) : Prop :=
  ∀ st, ∃ evs, trace (m st).1 = trace st ++ evs ∧ Forall P evs.

(** A method that only opens and writes [files]: it leaves the connections
    as they are and appends nothing else to the trace. *)
Definition only_reports {A : Type} (files : list string) (m : M A) : Prop :=
  ∀ st, ∃ evs,
    (m st).1 =
      State (baseline_conn st) (modified_conn st) (trace st ++ evs) ∧
    Forall (about_files files) evs.

(** The four report files of procedures, of triggers or of functions. *)
Definition report_files (k : scalar_kind) : list string :=
  [kind_plural k +:+ "_summary.log"; kind_plural k +:+ "_new.log";
   kind_plural k +:+ "_dropped.log"; kind_plural k +:+ "_modified.log"].

(** An event other than the closing of a connection. *)
Definition not_closing (ev : event) : Prop :=
  match ev with
  | DbClose _ => False
  | _ => True
  end.

(** Every report file of a run. *)
Definition all_report_files : list string :=
  "tables_diff.log" ::
  report_files Procedure ++ report_files Trigger ++ report_files Function.

(** The handle a call of [ibm_db.connect] returned, if it returned. *)
Definition handle_of (r : result nat) : option nat :=
  match r with
  | Ok h => Some h
  | Raise _ => None
  end.

(** A method that, from every state, returns a value satisfying [Q]. *)
Definition returns {A : Type} (Q : A → Prop) (m : M A) : Prop :=
  ∀ st, ∃ st' a, m st = (st', Ok a) ∧ Q a.

(** A method that returns, whatever the value. *)
Abbreviation completes m := (returns (λ _, True) m).

(** The fields of a row that the comparison of procedures, of triggers or of
    functions reads: those of the key, those it compares, and the remarks. *)
Definition scalar_fields (k : scalar_kind) : list string :=
  key_fields k ++ compare_keys k ++ ["remarks"].

(** A row of the table query that [compare_tables] can write: it has the
    fields of the key and the compared fields, its length is an integer and
    its scale is NULL or an integer. *)
Definition column_ok (col : record) : bool :=
  bool_decide (has_fields (table_key_fields ++ table_compare_keys) col) &&
  match col !! "length" with
  | Some (VInt _) => true
  | _ => false
  end &&
  match col !! "scale" with
  | Some VNone | Some (VInt _) => true
  | _ => false
  end.

(** The catalog behind the connection [h] answers the four queries with
    complete rows. *)
Definition catalog_ok (db : ibm_db) (h : nat) : Prop :=
  (∃ rows, ibm_exec_immediate db h TableQuery = Ok rows ∧
           Forall (λ col, column_ok col) (fetch_loop rows)) ∧
  ∀ k, ∃ rows, ibm_exec_immediate db h (query_of k) = Ok rows ∧
               Forall (has_fields (scalar_fields k)) (fetch_loop rows).

(** Complete rows of the four catalog queries. *)
Definition column_row (table name typename : string) (len : Z) : row :=
  [("TABSCHEMA", VStr "SALES"); ("TABNAME", VStr table);
   ("COLNAME", VStr name); ("TYPENAME", VStr typename);
   ("LENGTH", VInt len); ("SCALE", VInt 0); ("NULLS", VStr "Y");
   ("DEFAULT", VNone); ("COLNO", VInt 0); ("IDENTITY", VStr "N");
   ("GENERATED", VStr "")].

Definition proc_row (name language : string) : row :=
  [("PROCSCHEMA", VStr "SALES"); ("PROCNAME", VStr name);
   ("LANGUAGE", VStr language); ("DETERMINISTIC", VStr "N");
   ("NULLCALL", VStr "Y"); ("ROUTINE_TEXT", VStr "BEGIN END");
   ("PARAM_COUNT", VInt 2); ("RESULT_SETS", VInt 0); ("REMARKS", VNone)].

Definition trigger_row (name event : string) : row :=
  [("TRIGSCHEMA", VStr "SALES"); ("TRIGNAME", VStr name);
   ("TABSCHEMA", VStr "SALES"); ("TABNAME", VStr "ORDERS");
   ("TRIGTIME", VStr "A"); ("TRIGEVENT", VStr event);
   ("GRANULARITY", VStr "R"); ("VALID", VStr "Y"); ("REMARKS", VNone);
   ("TRIGGER_TEXT", VStr "CREATE TRIGGER"); ("ENABLED", VStr "Y")].

Definition function_row (name return_type : string) : row :=
  [("FUNCSCHEMA", VStr "SALES"); ("FUNCNAME", VStr name);
   ("FUNCTION_TYPE", VStr "S"); ("RETURN_TYPE", VStr return_type);
   ("FUNCTION_TEXT", VNone); ("DETERMINISTIC", VStr "Y");
   ("NULLCALL", VStr "Y"); ("LANGUAGE", VStr "SQL"); ("REMARKS", VNone);
   ("PARAM_COUNT", VInt 1)].

(** The rows of the baseline catalog and of the modified catalog of a
    sample run: a column changed its type and a table was added; a procedure
    changed its language; a trigger was dropped; a function is unchanged. *)
Definition sample_rows (modified : bool) (q : catalog_query) : list row :=
  match q with
  | TableQuery =>
      if modified
      then [column_row "ORDERS" "ID" "BIGINT" 8;
            column_row "ORDERS" "NOTE" "VARCHAR" 80;
            column_row "RETURNS" "ID" "INTEGER" 4]
      else [column_row "ORDERS" "ID" "INTEGER" 4;
            column_row "ORDERS" "NOTE" "VARCHAR" 80]
  | ProcQuery => [proc_row "TOTAL" (if modified then "C" else "SQL")]
  | TriggerQuery => if modified then [] else [trigger_row "AUDIT" "I"]
  | FunctionQuery => [function_row "TAX" "DECIMAL"]
  end.

(** A driver whose handles are the lengths of the connection strings (69
    for [baseline_cfg], 70 for [modified_cfg]) and whose catalogs are the
    sample rows. *)
Definition sample_db : ibm_db :=
  IbmDb (λ s, Ok (String.length s))
        (λ h q, Ok (sample_rows (bool_decide (h = 70)) q)).

(** A row of the table query that lacks the schema and the table name. *)
Definition narrow_table_row : record := sample_column "ID" "INTEGER" 4.

(** * Properties *)

(** ** Reading fields *)

Lemma getitem_Some (r : record) key v : r !! key = Some v → getitem r key = Ok v.
Proof. unfold getitem. by intros ->. Qed.

Lemma py_ne_true (a b : value) : py_ne a b = true ↔ a ≠ b.
Proof. unfold py_ne. apply bool_decide_eq_true. Qed.

Lemma py_ne_sym (a b : value) : py_ne a b = py_ne b a.
Proof. unfold py_ne. apply bool_decide_ext. naive_solver. Qed.

Lemma has_fields_cons f fields (r : record) :
  has_fields (f :: fields) r ↔ is_Some (r !! f) ∧ has_fields fields r.
Proof. unfold has_fields. by rewrite Forall_cons. Qed.

(** ** The field loops *)

(** The two field loops differ only in the text they record for a
    difference, so one induction on the keys serves both. *)
Ltac differences_by_induction keys :=
  let key := fresh "key" in
  let IH := fresh "IH" in
  let Hb := fresh "Hb" in
  let Hm := fresh "Hm" in
  let bv := fresh "bv" in
  let mv := fresh "mv" in
  let Hbv := fresh "Hbv" in
  let Hmv := fresh "Hmv" in
  let ds := fresh "ds" in
  let Hds := fresh "Hds" in
  let Hiff := fresh "Hiff" in
  let Hne := fresh "Hne" in
  let Hd := fresh "Hd" in
  induction keys as [|key keys IH]; intros Hb Hm;
  [ exists []; split; [done|]; split; [done|];
    intros (? & []%elem_of_nil & _)
  | apply has_fields_cons in Hb as [[bv Hbv] Hb];
    apply has_fields_cons in Hm as [[mv Hmv] Hm];
    destruct (IH Hb Hm) as (ds & Hds & Hiff);
    cbn [column_differences scalar_differences];
    rewrite (getitem_Some _ _ _ Hbv), (getitem_Some _ _ _ Hmv); cbn;
    rewrite Hds; cbn; eexists; split; [done|];
    destruct (py_ne bv mv) eqn:Hne;
    [ apply py_ne_true in Hne; split; [|done];
      intros _; exists key; split; [left|]; congruence
    | assert (bv = mv) as ->
        by (destruct (decide (bv = mv)) as [|Hd]; [done|];
            by apply py_ne_true in Hd; rewrite Hd in Hne);
      rewrite Hiff; split;
      [ intros (? & ? & ?); eexists; split; [by right|done]
      | intros (? & [->|?]%elem_of_cons & ?); [congruence|eauto] ] ] ].

(** On two columns that have the fields, the loop over the keys returns a
    list that is non-empty exactly when some key has unequal values. *)
Lemma column_differences_ok keys (b m : record) :
  has_fields keys b → has_fields keys m →
  ∃ ds, column_differences keys b m = Ok ds ∧
        (ds ≠ [] ↔ ∃ key, key ∈ keys ∧ b !! key ≠ m !! key).
Proof. differences_by_induction keys. Qed.

Lemma scalar_differences_ok keys (b m : record) :
  has_fields keys b → has_fields keys m →
  ∃ ds, scalar_differences keys b m = Ok ds ∧
        (ds ≠ [] ↔ ∃ key, key ∈ keys ∧ b !! key ≠ m !! key).
Proof. differences_by_induction keys. Qed.

(** ** Tables: the positional comparison *)

(** The loop over the zipped columns answers [True] exactly when some
    position holds two columns that differ in a compared field. *)
Lemma table_columns_differ_ok (bs ms : list record) :
  Forall (has_fields table_compare_keys) bs →
  Forall (has_fields table_compare_keys) ms →
  ∃ d, table_columns_differ (zip bs ms) = Ok d ∧
       (d = true ↔
        ∃ i b_col m_col key,
          bs !! i = Some b_col ∧ ms !! i = Some m_col ∧
          key ∈ table_compare_keys ∧ b_col !! key ≠ m_col !! key).
Proof.
  intros Hbs. revert ms.
  induction Hbs as [|b bs Hb Hbs IH]; intros ms Hms.
  - exists false. split; [done|]. split; [done|].
    intros (i & ? & ? & ? & Hi & _). by rewrite lookup_nil in Hi.
  - destruct Hms as [|m ms Hm Hms].
    { exists false. split; [done|]. split; [done|].
      intros (i & ? & ? & ? & _ & Hi & _). by rewrite lookup_nil in Hi. }
    destruct (column_differences_ok _ _ _ Hb Hm) as (ds & Hds & Hiff).
    cbn [zip zip_with table_columns_differ]. rewrite Hds. cbn.
    case_bool_decide as Hne.
    + exists true. split; [done|]. split; [|done]. intros _.
      apply Hiff in Hne as (key & ? & ?). by exists 0, b, m, key.
    + destruct (IH ms Hms) as (d & Hd & Hdiff).
      exists d. split; [done|]. rewrite Hdiff. split.
      * intros (i & bc & mc & key & ? & ? & ? & ?).
        by exists (S i), bc, mc, key.
      * intros ([|i] & bc & mc & key & Hi & Hj & Hkey & Hdif); cbn in Hi, Hj.
        -- injection Hi as ->. injection Hj as ->.
           exfalso. apply (proj2 Hiff); [eauto|done].
        -- by exists i, bc, mc, key.
Qed.

Lemma table_definitions_differ_length (baseline_cols modified_cols : list record) :
  length baseline_cols ≠ length modified_cols →
  _table_definitions_differ baseline_cols modified_cols = Ok true.
Proof. intros ?. unfold _table_definitions_differ. by case_bool_decide. Qed.

Lemma table_definitions_differ_ok (baseline_cols modified_cols : list record) :
  length baseline_cols = length modified_cols →
  Forall (has_fields table_compare_keys) baseline_cols →
  Forall (has_fields table_compare_keys) modified_cols →
  ∃ d, _table_definitions_differ baseline_cols modified_cols = Ok d ∧
       (d = true ↔
        ∃ i b_col m_col key,
          baseline_cols !! i = Some b_col ∧ modified_cols !! i = Some m_col ∧
          key ∈ table_compare_keys ∧ b_col !! key ≠ m_col !! key).
Proof.
  intros Hlen Hb Hm. unfold _table_definitions_differ.
  case_bool_decide; [done|]. by apply table_columns_differ_ok.
Qed.

(** C1.  Two column lists of different lengths are classified as changed
    whatever they hold; two lists of the same length whose columns have the
    compared fields are classified as changed exactly when, at some index,
    the baseline column and the modified column at that index differ in a
    compared field; so a column inserted anywhere into a list makes the table
    changed against the original list. *)
Theorem C1_table_comparison_is_positional (baseline_cols modified_cols : list record) :
  (length baseline_cols ≠ length modified_cols →
   _table_definitions_differ baseline_cols modified_cols = Ok true) ∧
  (length baseline_cols = length modified_cols →
   Forall (has_fields table_compare_keys) baseline_cols →
   Forall (has_fields table_compare_keys) modified_cols →
   ∃ d, _table_definitions_differ baseline_cols modified_cols = Ok d ∧
        (d = true ↔
         ∃ i b_col m_col key,
           baseline_cols !! i = Some b_col ∧ modified_cols !! i = Some m_col ∧
           key ∈ table_compare_keys ∧ b_col !! key ≠ m_col !! key)) ∧
  (∀ i new_col,
     _table_definitions_differ baseline_cols
       (take i baseline_cols ++ new_col :: drop i baseline_cols) = Ok true).
Proof.
  split_and!.
  - apply table_definitions_differ_length.
  - apply table_definitions_differ_ok.
  - intros i new_col. apply table_definitions_differ_length.
    rewrite length_app. cbn [length].
    rewrite <-(take_drop i baseline_cols) at 1. rewrite length_app. lia.
Qed.

(** ** The loop over the common keys *)

Section find_modified.
Context {V : Type} (differ : V → V → result bool).
Implicit Types baseline modified : gmap string V.

Lemma dict_get_Some baseline key b :
  baseline !! key = Some b → dict_get baseline key = Ok b.
Proof. unfold dict_get. by intros ->. Qed.

Lemma find_modified_loop_ok baseline modified keys :
  (∀ key, key ∈ keys →
     ∃ b m d, baseline !! key = Some b ∧ modified !! key = Some m ∧
              differ b m = Ok d) →
  ∃ changed,
    find_modified_loop differ baseline modified keys = Ok changed ∧
    ∀ key, key ∈ changed ↔
           key ∈ keys ∧
           ∃ b m, baseline !! key = Some b ∧ modified !! key = Some m ∧
                  differ b m = Ok true.
Proof.
  induction keys as [|key keys IH]; intros Hkeys.
  - exists []. split; [done|]. intros key. split.
    + by intros ?%elem_of_nil.
    + by intros [?%elem_of_nil _].
  - destruct (Hkeys key) as (b & m & d & Hb & Hm & Hd); [left|].
    destruct IH as (rest & Hrest & Hiff).
    { intros k' ?. apply Hkeys. by right. }
    cbn [find_modified_loop].
    rewrite (dict_get_Some _ _ _ Hb), (dict_get_Some _ _ _ Hm). cbn.
    rewrite Hd. cbn. rewrite Hrest. cbn. eexists; split; [done|].
    intros k'. destruct d.
    + rewrite !elem_of_cons, Hiff. split.
      * intros [->|[? ?]]; [|by auto]. split; [by left|]. by exists b, m.
      * intros [[->|?] ?]; auto.
    + rewrite Hiff. split.
      * intros [? ?]. split; [by right|done].
      * intros [[->|?]%elem_of_cons (b' & m' & Hb' & Hm' & Hd')].
        -- rewrite Hb in Hb'. rewrite Hm in Hm'.
           injection Hb' as <-. injection Hm' as <-. congruence.
        -- split; [done|]. by exists b', m'.
Qed.

Lemma elem_of_iter_keys o (X : gset string) key :
  keys_order_ok o → key ∈ iter_keys o X ↔ key ∈ X.
Proof. intros Ho. by rewrite (Ho X), elem_of_elements. Qed.

(** With an admissible iteration order, and a comparison that answers on
    every pair of values stored under a common key, the changed keys are
    the common keys whose two values the comparison tells apart. *)
Lemma find_modified_ok o baseline modified :
  keys_order_ok o →
  (∀ key b m, baseline !! key = Some b → modified !! key = Some m →
              ∃ d, differ b m = Ok d) →
  ∃ changed,
    find_modified differ o baseline modified = Ok changed ∧
    ∀ key, key ∈ changed ↔
           ∃ b m, baseline !! key = Some b ∧ modified !! key = Some m ∧
                  differ b m = Ok true.
Proof.
  intros Ho Hdiffer. unfold find_modified.
  destruct (find_modified_loop_ok baseline modified
              (iter_keys o (dom baseline ∩ dom modified)))
    as (changed & Hchanged & Hiff).
  { intros key Hkey. apply (elem_of_iter_keys _ _ _ Ho) in Hkey.
    apply elem_of_intersection in Hkey as [[b Hb]%elem_of_dom [m Hm]%elem_of_dom].
    destruct (Hdiffer key b m Hb Hm) as [d Hd]. by exists b, m, d. }
  exists changed. split; [done|]. intros key. rewrite Hiff.
  rewrite (elem_of_iter_keys _ _ _ Ho), elem_of_intersection, !elem_of_dom.
  split; [by intros [_ ?]|]. intros (b & m & Hb & Hm & Hd).
  split; [|by exists b, m]. by rewrite Hb, Hm.
Qed.
End find_modified.

(** ** Added and removed keys *)

(** C2.  The added keys are exactly the keys of the modified grouping that
    the baseline grouping lacks, and the removed keys are exactly the keys of
    the baseline grouping that the modified grouping lacks. *)
Theorem C2_added_and_removed_keys {V : Type}
    (baseline_dict modified_dict : gmap string V) (key : string) :
  (key ∈ new_keys baseline_dict modified_dict ↔
   is_Some (modified_dict !! key) ∧ baseline_dict !! key = None) ∧
  (key ∈ dropped_keys baseline_dict modified_dict ↔
   is_Some (baseline_dict !! key) ∧ modified_dict !! key = None).
Proof.
  unfold new_keys, dropped_keys.
  rewrite !elem_of_difference, !elem_of_dom, <-!eq_None_not_Some.
  done.
Qed.

(** ** Procedures, triggers and functions: changed keys *)

Lemma definitions_differ_ok k (b m : record) :
  has_fields (compare_keys k) b → has_fields (compare_keys k) m →
  ∃ d, definitions_differ k b m = Ok d ∧
       (d = true ↔ ∃ f, f ∈ compare_keys k ∧ b !! f ≠ m !! f).
Proof.
  intros Hb Hm. unfold definitions_differ.
  destruct (scalar_differences_ok _ _ _ Hb Hm) as (ds & -> & Hiff). cbn.
  eexists; split; [done|]. by rewrite bool_decide_eq_true.
Qed.

Lemma table_definitions_differ_total (b m : list record) :
  Forall (has_fields table_compare_keys) b →
  Forall (has_fields table_compare_keys) m →
  ∃ d, _table_definitions_differ b m = Ok d.
Proof.
  intros Hb Hm. destruct (decide (length b = length m)) as [Hlen|Hlen].
  - destruct (table_definitions_differ_ok b m Hlen Hb Hm) as (d & ? & _); eauto.
  - exists true. by apply table_definitions_differ_length.
Qed.

(** C3.  For procedures, triggers and functions alike: when the records of
    both groupings have the compared fields, the comparison returns a list of
    changed keys, and a key present in both groupings is in that list if and
    only if some compared field has unequal values in its baseline record and
    its modified record. *)
Theorem C3_scalar_changed_iff_field_differs (k : scalar_kind) (o : set_order)
    (baseline modified : gmap string record) :
  keys_order_ok o →
  scalar_grouping_ok k baseline →
  scalar_grouping_ok k modified →
  ∃ changed,
    find_modified_scalar k o baseline modified = Ok changed ∧
    ∀ key b m,
      baseline !! key = Some b → modified !! key = Some m →
      (key ∈ changed ↔ ∃ f, f ∈ compare_keys k ∧ b !! f ≠ m !! f).
Proof.
  intros Ho Hbase Hmod. unfold find_modified_scalar.
  destruct (find_modified_ok (definitions_differ k) o baseline modified Ho)
    as (changed & Hchanged & Hiff).
  { intros key b m Hb Hm.
    destruct (definitions_differ_ok k b m) as (d & ? & _); eauto. }
  exists changed. split; [done|]. intros key b m Hb Hm.
  destruct (definitions_differ_ok k b m) as (d & Hd & Hdiff); eauto.
  rewrite Hiff, <-Hdiff. split.
  - intros (b' & m' & Hb' & Hm' & Hd'). congruence.
  - intros ->. by exists b, m.
Qed.

(** ** The three categories are disjoint *)

Section partition.
Context {V : Type} (differ : V → V → result bool).

Lemma find_modified_partition o (baseline modified : gmap string V) :
  keys_order_ok o →
  (∀ key b m, baseline !! key = Some b → modified !! key = Some m →
              ∃ d, differ b m = Ok d) →
  ∃ changed,
    find_modified differ o baseline modified = Ok changed ∧
    partition_of differ baseline modified changed.
Proof.
  intros Ho Hdiffer.
  destruct (find_modified_ok differ o baseline modified Ho Hdiffer)
    as (changed & Hchanged & Hiff).
  exists changed. split; [done|]. unfold partition_of, new_keys, dropped_keys.
  split_and!.
  - intros key [_ Hbase]%elem_of_difference [Hbase' _]%elem_of_difference.
    done.
  - intros key (b & m & Hb & Hm & _)%Hiff.
    apply not_elem_of_difference. right. apply elem_of_dom. eauto.
  - intros key (b & m & Hb & Hm & _)%Hiff.
    apply not_elem_of_difference. right. apply elem_of_dom. eauto.
  - intros key b m Hb Hm. destruct (Hdiffer key b m Hb Hm) as [[] Hd].
    + left. split; [|done]. apply Hiff. by exists b, m.
    + right. split; [|done]. intros (b' & m' & Hb' & Hm' & Hd')%Hiff.
      congruence.
Qed.
End partition.

(** C7.  For procedures, triggers and functions, and for tables: when the
    records have the compared fields, the comparison returns the changed
    keys, and then the added keys, the removed keys and the changed keys are
    pairwise disjoint, and each key of both groupings is either changed or
    unchanged, never both. *)
Theorem C7_categories_are_disjoint (o : set_order) :
  keys_order_ok o →
  (∀ k (baseline modified : gmap string record),
     scalar_grouping_ok k baseline → scalar_grouping_ok k modified →
     ∃ changed,
       find_modified_scalar k o baseline modified = Ok changed ∧
       partition_of (definitions_differ k) baseline modified changed) ∧
  (∀ baseline modified : gmap string (list record),
     table_grouping_ok baseline → table_grouping_ok modified →
     ∃ changed,
       _find_modified_tables o baseline modified = Ok changed ∧
       partition_of _table_definitions_differ baseline modified changed).
Proof.
  intros Ho. split.
  - intros k baseline modified Hbase Hmod.
    apply find_modified_partition; [done|]. intros key b m Hb Hm.
    destruct (definitions_differ_ok k b m) as (d & ? & _); eauto.
  - intros baseline modified Hbase Hmod.
    apply find_modified_partition; [done|]. intros key b m Hb Hm.
    apply table_definitions_differ_total; eauto.
Qed.

(** ** Swapping baseline and modified *)

Lemma scalar_differences_sym keys (b m : record) :
  scalar_differences keys b m = scalar_differences keys m b.
Proof.
  induction keys as [|key keys IH]; [done|]. cbn [scalar_differences].
  unfold getitem. rewrite IH.
  destruct (b !! key) as [bv|], (m !! key) as [mv|]; cbn; try done.
  by rewrite (py_ne_sym bv mv).
Qed.

Lemma definitions_differ_sym k (b m : record) :
  definitions_differ k b m = definitions_differ k m b.
Proof. unfold definitions_differ. by rewrite scalar_differences_sym. Qed.

Lemma column_differences_sym keys (b m : record) :
  any_difference (column_differences keys b m) =
  any_difference (column_differences keys m b).
Proof.
  induction keys as [|key keys IH]; [done|]. cbn [column_differences].
  unfold getitem.
  destruct (b !! key) as [bv|], (m !! key) as [mv|]; cbn; try done.
  rewrite (py_ne_sym mv bv). unfold any_difference in IH.
  destruct (column_differences keys b m) as [d1|e1],
           (column_differences keys m b) as [d2|e2]; cbn in *; try done.
  destruct (py_ne bv mv); [|exact IH].
  by rewrite !bool_decide_eq_true_2.
Qed.

Lemma table_columns_differ_sym (bs ms : list record) :
  table_columns_differ (zip bs ms) = table_columns_differ (zip ms bs).
Proof.
  revert ms. induction bs as [|b bs IH]; intros [|m ms]; try done.
  cbn [zip zip_with table_columns_differ].
  pose proof (column_differences_sym table_compare_keys b m) as Hsym.
  unfold any_difference in Hsym.
  destruct (column_differences table_compare_keys b m) as [d1|e1],
           (column_differences table_compare_keys m b) as [d2|e2];
    cbn in *; try done.
  injection Hsym as ->. rewrite IH. done.
Qed.

Lemma table_definitions_differ_sym (b m : list record) :
  _table_definitions_differ b m = _table_definitions_differ m b.
Proof.
  unfold _table_definitions_differ. rewrite table_columns_differ_sym.
  apply (f_equal (λ c : bool, if c then _ else _)).
  apply bool_decide_ext. split; congruence.
Qed.

Lemma find_modified_swap {V : Type} (differ : V → V → result bool)
    (o1 o2 : set_order) (A B : gmap string V) :
  keys_order_ok o1 → keys_order_ok o2 →
  (∀ a b, differ a b = differ b a) →
  (∀ key a b, A !! key = Some a → B !! key = Some b → ∃ d, differ a b = Ok d) →
  new_keys A B = dropped_keys B A ∧
  dropped_keys A B = new_keys B A ∧
  ∃ changed_ab changed_ba,
    find_modified differ o1 A B = Ok changed_ab ∧
    find_modified differ o2 B A = Ok changed_ba ∧
    ∀ key, key ∈ changed_ab ↔ key ∈ changed_ba.
Proof.
  intros Ho1 Ho2 Hsym Htotal. split; [done|]. split; [done|].
  destruct (find_modified_ok differ o1 A B Ho1 Htotal) as (c1 & Hc1 & Hiff1).
  destruct (find_modified_ok differ o2 B A Ho2) as (c2 & Hc2 & Hiff2).
  { intros key b a Hb Ha. rewrite Hsym. eauto. }
  exists c1, c2. split; [done|]. split; [done|]. intros key.
  rewrite Hiff1, Hiff2. split.
  - intros (a & b & ? & ? & ?). exists b, a. by rewrite Hsym.
  - intros (b & a & ? & ? & ?). exists a, b. by rewrite Hsym.
Qed.

(** C8.  Comparing A against B and B against A, for procedures, triggers
    and functions and for tables: the keys added one way are the keys removed
    the other way, and both directions report the same set of changed keys,
    whichever order the two runs visit the common keys in. *)
Theorem C8_swapping_baseline_and_modified (o1 o2 : set_order) :
  keys_order_ok o1 → keys_order_ok o2 →
  (∀ k (A B : gmap string record),
     scalar_grouping_ok k A → scalar_grouping_ok k B →
     new_keys A B = dropped_keys B A ∧
     dropped_keys A B = new_keys B A ∧
     ∃ changed_ab changed_ba,
       find_modified_scalar k o1 A B = Ok changed_ab ∧
       find_modified_scalar k o2 B A = Ok changed_ba ∧
       ∀ key, key ∈ changed_ab ↔ key ∈ changed_ba) ∧
  (∀ A B : gmap string (list record),
     table_grouping_ok A → table_grouping_ok B →
     new_keys A B = dropped_keys B A ∧
     dropped_keys A B = new_keys B A ∧
     ∃ changed_ab changed_ba,
       _find_modified_tables o1 A B = Ok changed_ab ∧
       _find_modified_tables o2 B A = Ok changed_ba ∧
       ∀ key, key ∈ changed_ab ↔ key ∈ changed_ba).
Proof.
  intros Ho1 Ho2. split.
  - intros k A B HA HB. apply find_modified_swap; try done.
    + apply definitions_differ_sym.
    + intros key a b Ha Hb.
      destruct (definitions_differ_ok k a b) as (d & ? & _); eauto.
  - intros A B HA HB. apply find_modified_swap; try done.
    + apply table_definitions_differ_sym.
    + intros key a b Ha Hb. apply table_definitions_differ_total; eauto.
Qed.

(** ** Grouping procedures, triggers and functions *)

Lemma scalar_key_ok k (r : record) :
  has_fields (key_fields k) r → ∃ key, scalar_key k r = Ok key.
Proof.
  unfold key_fields. rewrite !has_fields_cons. intros ([s Hs] & [n Hn] & _).
  unfold scalar_key.
  rewrite (getitem_Some _ _ _ Hs), (getitem_Some _ _ _ Hn). cbn. eauto.
Qed.

(** The filling loop from any dictionary built so far: a key holds the last
    record of the remaining input filed under it, or else what it held. *)
Lemma dict_fold `{Countable K} (key_of : record → result K)
    (rs : list record) (g0 : gmap K record) :
  Forall (λ r, ∃ key, key_of r = Ok key) rs →
  ∃ g, foldl (dict_step key_of) (Ok g0) rs = Ok g ∧
       ∀ key, g !! key =
              match last (filter (λ r, key_of r = Ok key) rs) with
              | Some r => Some r
              | None => g0 !! key
              end.
Proof.
  intros Hrs. revert g0. induction Hrs as [|r rs [key_r Hkey] Hrs IH]; intros g0.
  - exists g0. by split.
  - assert (dict_step key_of (Ok g0) r = Ok (<[key_r := r]> g0)) as Hstep.
    { unfold dict_step. cbn. by rewrite Hkey. }
    cbn [foldl]. rewrite Hstep.
    destruct (IH (<[key_r := r]> g0)) as (g & Hg & Hlook).
    exists g. split; [done|]. intros key. rewrite Hlook.
    rewrite filter_cons.
    destruct (decide (key_of r = Ok key)) as [Heq|Hne].
    + rewrite last_cons. assert (key_r = key) as -> by congruence.
      destruct (last _); [done|]. by rewrite lookup_insert_eq.
    + destruct (last _); [done|]. rewrite lookup_insert_ne; [done|].
      intros ->. done.
Qed.

(** Once the loop has raised, the rest of the input is not looked at. *)
Lemma dict_fold_raise `{Countable K} (key_of : record → result K)
    (rs : list record) e :
  foldl (dict_step key_of) (Raise e) rs = Raise e.
Proof. induction rs as [|r rs IH]; [done|]. cbn. apply IH. Qed.

(** The only exceptions the loop raises are those of the key computation. *)
Lemma dict_fold_error `{Countable K} (key_of : record → result K)
    (rs : list record) (g0 : gmap K record) e :
  foldl (dict_step key_of) (Ok g0) rs = Raise e →
  ∃ r, r ∈ rs ∧ key_of r = Raise e.
Proof.
  revert g0. induction rs as [|r rs IH]; intros g0; [done|].
  cbn [foldl]. unfold dict_step at 2. cbn.
  destruct (key_of r) as [key|e'] eqn:Hkey; cbn.
  - intros (r' & ? & ?)%IH. exists r'. split; [by right|done].
  - rewrite dict_fold_raise. intros [= <-]. exists r. split; [left|done].
Qed.

Lemma scalar_key_error k (r : record) e :
  scalar_key k r = Raise e → ∃ f, f ∈ key_fields k ∧ e = KeyError (VStr f).
Proof.
  unfold scalar_key, getitem, key_fields.
  destruct (r !! schema_field k) as [s|]; cbn.
  - destruct (r !! name_field k) as [n|]; cbn; [done|].
    intros [= <-]. exists (name_field k). split; [|done]. right; left.
  - intros [= <-]. exists (schema_field k). split; [|done]. left.
Qed.

Lemma group_by_fold k (rs : list record) :
  Forall (has_fields (key_fields k)) rs →
  ∃ g, group_by k rs = Ok g ∧
       ∀ key, g !! key = last (records_with_key k key rs).
Proof.
  intros Hrs. destruct (dict_fold (scalar_key k) rs ∅) as (g & Hg & Hlook).
  { eapply Forall_impl; [exact Hrs|]. intros r. apply scalar_key_ok. }
  exists g. split; [done|]. intros key. rewrite Hlook.
  unfold records_with_key. by destruct (last _).
Qed.

(** C9.  For procedures, triggers and functions: grouping records that all
    carry the key fields raises nothing, however many of them share a
    qualified key, and each key of the grouping holds the last record of the
    input filed under that key. *)
Theorem C9_grouping_keeps_last_record (k : scalar_kind) (rs : list record) :
  Forall (has_fields (key_fields k)) rs →
  ∃ g, group_by k rs = Ok g ∧
       ∀ key, g !! key = last (records_with_key k key rs).
Proof.
  apply group_by_fold.
Qed.

(** C4 (as the code has it).  Grouping never fails on a repeated key: on
    records that carry the key fields it returns a grouping whose keys are
    exactly the qualified keys met in the input, repeated or not; and the
    only exception it can raise at all is the [KeyError] of a missing key
    field. *)
Theorem C4_grouping_accepts_repeated_keys (k : scalar_kind) (rs : list record) :
  (Forall (has_fields (key_fields k)) rs →
   ∃ g, group_by k rs = Ok g ∧
        ∀ key, key ∈ dom g ↔ ∃ r, r ∈ rs ∧ scalar_key k r = Ok key) ∧
  (∀ e, group_by k rs = Raise e →
        ∃ f, f ∈ key_fields k ∧ e = KeyError (VStr f)).
Proof.
  split.
  2:{ intros e (r & _ & Hr)%dict_fold_error. by apply scalar_key_error in Hr. }
  intros Hrs. destruct (group_by_fold k rs Hrs) as (g & Hg & Hlook).
  exists g. split; [done|]. intros key.
  rewrite elem_of_dom, Hlook. split.
  - destruct (last _) as [r|] eqn:Hlast; [|by intros [? ?]]. intros _.
    apply last_Some_elem_of in Hlast.
    apply list_elem_of_filter in Hlast as [? ?]. by exists r.
  - intros (r & Hin & Hkey).
    assert (records_with_key k key rs ≠ []) as Hne.
    { intros Hnil. assert (r ∈ records_with_key k key rs) as Hr.
      { by apply list_elem_of_filter. }
      rewrite Hnil in Hr. by apply elem_of_nil in Hr. }
    apply last_is_Some in Hne as [r' ->]. eauto.
Qed.

(** C4 (as the spec has it) fails: two catalog rows of the same procedure
    [SALES.TOTAL] are grouped without any error, and the grouping holds the
    second. *)
Lemma C4_repeated_key_is_not_an_error :
  scalar_key Procedure (sample_proc "SQL") = Ok "SALES.TOTAL" ∧
  scalar_key Procedure (sample_proc "C") = Ok "SALES.TOTAL" ∧
  _group_by_proc [sample_proc "SQL"; sample_proc "C"] =
    Ok {[ "SALES.TOTAL" := sample_proc "C" ]} ∧
  ¬ ∃ e, _group_by_proc [sample_proc "SQL"; sample_proc "C"] = Raise e.
Proof.
  assert (_group_by_proc [sample_proc "SQL"; sample_proc "C"] =
          Ok {[ "SALES.TOTAL" := sample_proc "C" ]}) as Heq.
  { vm_compute. reflexivity. }
  split_and!; [by vm_compute..|done|].
  rewrite Heq. by intros [e ?].
Qed.

(** ** The run as a whole *)

Lemma close_spec (st : state) :
  close st =
    (State (baseline_conn st) (modified_conn st) (trace st ++ closing st),
     Ok ()).
Proof.
  destruct st as [[b|] [m|] tr]; unfold closing; cbn;
    unfold close, get_state, emit, mbind, M_bind, mret, M_ret; cbn;
    rewrite <-?(assoc_L (++)), ?(right_id_L [] (++)); done.
Qed.

(** A comparison that raises ends [main]: the [finally] block closes the
    connections and the exception leaves [main]. *)
Lemma try_finally_close_raise {A : Type} (body : M A) st0 st e :
  body st0 = (st, Raise e) →
  try_finally body close st0 =
    (State (baseline_conn st) (modified_conn st) (trace st ++ closing st),
     Raise e).
Proof. intros Hbody. unfold try_finally. by rewrite Hbody, close_spec. Qed.

(** Sequencing in the state-and-exception monad. *)
Lemma bind_ok {A B : Type} (m : M A) (f : A → M B) st st' a :
  m st = (st', Ok a) → (m ≫= f) st = f a st'.
Proof. intros Hm. unfold mbind, M_bind. by rewrite Hm. Qed.

Lemma bind_raise {A B : Type} (m : M A) (f : A → M B) st st' e :
  m st = (st', Raise e) → (m ≫= f) st = (st', Raise e).
Proof. intros Hm. unfold mbind, M_bind. by rewrite Hm. Qed.

(** C5 (as the code has it).  Once both connections are open, the first
    comparison that raises ends the run: the later comparisons are not
    started, the connections are closed, and the exception leaves [main];
    after the events of the failed comparison the run records nothing but
    the closing of the connections. *)
Theorem C5_failed_comparison_ends_the_run (db : ibm_db) (o : set_order)
    (baseline_config modified_config : DbConfig) (st0 : state) (e : exn) :
  connect db baseline_config modified_config (State None None []) = (st0, Ok ()) →
  (∀ st1,
     compare_tables db o st0 = (st1, Raise e) →
     ends_after db o baseline_config modified_config st1 e) ∧
  (∀ st1 st2,
     compare_tables db o st0 = (st1, Ok ()) →
     compare_procedures db o st1 = (st2, Raise e) →
     ends_after db o baseline_config modified_config st2 e) ∧
  (∀ st1 st2 st3,
     compare_tables db o st0 = (st1, Ok ()) →
     compare_procedures db o st1 = (st2, Ok ()) →
     compare_triggers db o st2 = (st3, Raise e) →
     ends_after db o baseline_config modified_config st3 e) ∧
  (∀ st1 st2 st3 st4,
     compare_tables db o st0 = (st1, Ok ()) →
     compare_procedures db o st1 = (st2, Ok ()) →
     compare_triggers db o st2 = (st3, Ok ()) →
     compare_functions db o st3 = (st4, Raise e) →
     ends_after db o baseline_config modified_config st4 e).
Proof.
  intros Hconnect. unfold ends_after, main, main_body. split_and!.
  - intros st1 H1. apply try_finally_close_raise.
    rewrite (bind_ok _ _ _ _ _ Hconnect). by apply bind_raise.
  - intros st1 st2 H1 H2. apply try_finally_close_raise.
    rewrite (bind_ok _ _ _ _ _ Hconnect), (bind_ok _ _ _ _ _ H1).
    by apply bind_raise.
  - intros st1 st2 st3 H1 H2 H3. apply try_finally_close_raise.
    rewrite (bind_ok _ _ _ _ _ Hconnect), (bind_ok _ _ _ _ _ H1),
      (bind_ok _ _ _ _ _ H2).
    by apply bind_raise.
  - intros st1 st2 st3 st4 H1 H2 H3 H4. apply try_finally_close_raise.
    rewrite (bind_ok _ _ _ _ _ Hconnect), (bind_ok _ _ _ _ _ H1),
      (bind_ok _ _ _ _ _ H2), (bind_ok _ _ _ _ _ H3).
    exact H4.
Qed.

(** C5 at the sample run, where the table query returns a row without a
    table name. *)
Lemma C5_failed_comparison_ends_the_run_witness :
  ends_after broken_tables_db hash_order baseline_cfg modified_cfg
    connected (KeyError (VStr "tabname")).
Proof.
  apply (proj1 (C5_failed_comparison_ends_the_run broken_tables_db hash_order
                  baseline_cfg modified_cfg connected
                  (KeyError (VStr "tabname")) ltac:(vm_compute; reflexivity))).
  vm_compute. reflexivity.
Defined.

(** C5 (as the spec has it) fails.  In the sample run the comparison of
    tables raises; the comparison of procedures, started from the same state,
    would have written its summary; yet the run ends with the exception,
    having opened no report, logged no error, and only closed the two
    connections. *)
Lemma C5_failure_in_tables_stops_the_other_reports :
  connect broken_tables_db baseline_cfg modified_cfg (State None None []) =
    (connected, Ok ()) ∧
  compare_tables broken_tables_db hash_order connected =
    (connected, Raise (KeyError (VStr "tabname"))) ∧
  (∃ st, compare_procedures broken_tables_db hash_order connected = (st, Ok ()) ∧
         FileOpen "procedures_summary.log" ∈ trace st) ∧
  main broken_tables_db hash_order baseline_cfg modified_cfg =
    (State (Some 69) (Some 70) [DbClose 69; DbClose 70],
     Raise (KeyError (VStr "tabname"))) ∧
  FileOpen "procedures_summary.log" ∉
    trace (main broken_tables_db hash_order baseline_cfg modified_cfg).1.
Proof.
  assert (main broken_tables_db hash_order baseline_cfg modified_cfg =
          (State (Some 69) (Some 70) [DbClose 69; DbClose 70],
           Raise (KeyError (VStr "tabname")))) as Hmain.
  { vm_compute. reflexivity. }
  split_and!.
  - vm_compute. reflexivity.
  - vm_compute. reflexivity.
  - eexists. split; [vm_compute; reflexivity|]. cbn. left.
  - exact Hmain.
  - rewrite Hmain. cbn. intros [?|[?|?%elem_of_nil]%elem_of_cons]%elem_of_cons;
      done.
Qed.

(** ** The order of the report *)

(** [sorted] returns its input in ascending order. *)
Lemma sorted_spec (xs : list string) :
  StronglySorted String.le (sorted xs) ∧ sorted xs ≡ₚ xs.
Proof.
  split.
  - apply (StronglySorted_merge_sort String.le).
  - apply merge_sort_Permutation.
Qed.

(** The sections that list qualified keys are the same under every
    admissible iteration order: the keys of a set are written in ascending
    order. *)
Lemma sorted_keys_reproducible (o1 o2 : set_order) (X : gset string) :
  keys_order_ok o1 → keys_order_ok o2 →
  sorted (iter_keys o1 X) = sorted (iter_keys o2 X).
Proof.
  intros Ho1 Ho2.
  apply (StronglySorted_unique String.le); try apply sorted_spec.
  by rewrite !(proj2 (sorted_spec _)), (Ho1 X), (Ho2 X).
Qed.

Lemma hash_order_ok : keys_order_ok hash_order ∧ cols_order_ok hash_order.
Proof. by split; intros X. Qed.

Lemma reversed_order_ok :
  keys_order_ok reversed_order ∧ cols_order_ok reversed_order.
Proof. split; intros X; cbn; apply reverse_Permutation. Qed.

(** C6, the column part, at a table that gained the columns [A], [B] and
    [C]: the detail section lists the added columns in the order in which
    the set yields them, here [C], [A], [B], and under another admissible
    order [B], [A], [C]; neither is the ascending order, and the two runs
    differ. *)
Theorem C6_added_columns_follow_the_set_order :
  cols_order_ok hash_order ∧ cols_order_ok reversed_order ∧
  write_column_changes "tables_diff.log" hash_order narrow_table wide_table
      (State None None []) =
    (State None None
       [FileWrite "tables_diff.log" ("  Added columns:" +:+ nl);
        FileWrite "tables_diff.log" ("    + C" +:+ nl);
        FileWrite "tables_diff.log" ("    + A" +:+ nl);
        FileWrite "tables_diff.log" ("    + B" +:+ nl)],
     Ok ()) ∧
  write_column_changes "tables_diff.log" reversed_order narrow_table wide_table
      (State None None []) =
    (State None None
       [FileWrite "tables_diff.log" ("  Added columns:" +:+ nl);
        FileWrite "tables_diff.log" ("    + B" +:+ nl);
        FileWrite "tables_diff.log" ("    + A" +:+ nl);
        FileWrite "tables_diff.log" ("    + C" +:+ nl)],
     Ok ()).
Proof.
  split_and!.
  - apply hash_order_ok.
  - apply reversed_order_ok.
  - vm_compute. reflexivity.
  - vm_compute. reflexivity.
Qed.

(** ** Reordered columns *)

Lemma has_fields_column_fields (col : record) :
  has_fields table_compare_keys col ↔ Forall is_Some (column_fields col).
Proof. unfold has_fields, column_fields. by rewrite Forall_fmap. Qed.

Lemma column_name_column_fields (col : record) :
  column_name col = default None (head (column_fields col)).
Proof. done. Qed.

(** Columns that agree on the compared fields agree on each of them. *)
Lemma column_fields_eq_lookup (b m : record) key :
  column_fields b = column_fields m → key ∈ table_compare_keys →
  b !! key = m !! key.
Proof.
  unfold column_fields. intros Heq Hkey.
  apply list_elem_of_lookup in Hkey as [i Hi].
  apply (f_equal (λ l, l !! i)) in Heq.
  rewrite !list_lookup_fmap, Hi in Heq. by injection Heq.
Qed.

(** Columns that disagree on the compared fields disagree on one of them. *)
Lemma column_fields_neq_lookup (b m : record) :
  column_fields b ≠ column_fields m →
  ∃ key, key ∈ table_compare_keys ∧ b !! key ≠ m !! key.
Proof.
  intros Hne. apply Exists_exists.
  apply (not_Forall_Exists (λ key, b !! key = m !! key)).
  intros HF. apply Hne. unfold column_fields.
  apply list_fmap_ext. intros i key Hi.
  rewrite Forall_forall in HF. apply HF. by eapply list_elem_of_lookup_2.
Qed.

(** Two lists of the same length that differ, differ at some index. *)
Lemma list_neq_lookup `{EqDecision A} (l1 l2 : list A) :
  length l1 = length l2 → l1 ≠ l2 →
  ∃ i x y, l1 !! i = Some x ∧ l2 !! i = Some y ∧ x ≠ y.
Proof.
  revert l2. induction l1 as [|x l1 IH]; intros [|y l2] Hlen Hne; try done.
  destruct (decide (x = y)) as [->|Hxy].
  - destruct (IH l2) as (i & x' & y' & ? & ? & ?); [by injection Hlen|congruence|].
    by exists (S i), x', y'.
  - by exists 0, x, y.
Qed.

Lemma NoDup_fmap_eq {A B : Type} (f : A → B) (l : list A) x y :
  NoDup (f <$> l) → x ∈ l → y ∈ l → f x = f y → x = y.
Proof.
  induction l as [|a l IH]; intros Hnd Hx Hy Hf; [by apply elem_of_nil in Hx|].
  rewrite fmap_cons in Hnd. apply NoDup_cons in Hnd as [Hnotin Hnd].
  apply elem_of_cons in Hx as [->|Hx]; apply elem_of_cons in Hy as [->|Hy].
  - done.
  - destruct Hnotin. rewrite Hf. by apply list_elem_of_fmap_2.
  - destruct Hnotin. rewrite <-Hf. by apply list_elem_of_fmap_2.
  - by apply IH.
Qed.

(** The dictionary of a table whose columns bear distinct names files each
    column under its name. *)
Lemma cols_dict_lookup (cols : list record) :
  Forall (has_fields table_compare_keys) cols →
  NoDup (column_name <$> cols) →
  ∃ d, cols_dict cols = Ok d ∧
       ∀ name col, d !! name = Some col ↔
                   col ∈ cols ∧ column_name col = Some name.
Proof.
  intros Hcols Hnd.
  assert (∀ col name, getitem col "colname" = Ok name ↔
                      column_name col = Some name) as Hname.
  { intros col name. unfold getitem, column_name.
    destruct (col !! "colname"); naive_solver. }
  destruct (dict_fold (λ col, getitem col "colname") cols ∅)
    as (d & Hd & Hlook).
  { eapply Forall_impl; [exact Hcols|]. intros col Hcol.
    apply has_fields_cons in Hcol as [[name Hn] _].
    exists name. by apply getitem_Some. }
  exists d. split; [done|]. intros name col. rewrite Hlook, lookup_empty.
  destruct (last _) as [col'|] eqn:Hlast.
  - apply last_Some_elem_of, list_elem_of_filter in Hlast as [Hk Hin].
    apply Hname in Hk. split.
    + by intros [= <-].
    + intros [Hin' Hk']. f_equal.
      apply (NoDup_fmap_eq column_name cols); [done..|congruence].
  - apply last_None in Hlast. split; [done|]. intros [Hin Hk].
    assert (col ∈ filter (λ r, getitem r "colname" = Ok name) cols) as Hf.
    { apply list_elem_of_filter. split; [by apply Hname|done]. }
    rewrite Hlast in Hf. by apply elem_of_nil in Hf.
Qed.

Lemma elem_of_iter_cols o (X : gset value) name :
  cols_order_ok o → name ∈ iter_cols o X ↔ name ∈ X.
Proof. intros Ho. by rewrite (Ho X), elem_of_elements. Qed.

(** When every name visited is filed in both dictionaries under columns
    that agree on the compared fields, no column is reported as modified. *)
Lemma modified_columns_none (db dm : gmap value record) (names : list value) :
  (∀ name, name ∈ names →
     ∃ b m, db !! name = Some b ∧ dm !! name = Some m ∧
            has_fields table_compare_keys b ∧
            column_fields b = column_fields m) →
  modified_columns db dm names = Ok [].
Proof.
  induction names as [|name names IH]; intros Hnames; [done|].
  destruct (Hnames name) as (b & m & Hb & Hm & Hwf & Heq); [left|].
  assert (has_fields table_compare_keys m) as Hwf'.
  { apply has_fields_column_fields. rewrite <-Heq.
    by apply has_fields_column_fields. }
  assert (∀ col, has_fields table_compare_keys col → has_fields detail_keys col)
    as Hsub.
  { intros col Hcol. by apply has_fields_cons in Hcol as [_ ?]. }
  destruct (column_differences_ok detail_keys b m) as (ds & Heqds & Hiff);
    [by apply Hsub..|].
  cbn [modified_columns]. unfold cols_get. rewrite Hb, Hm.
  cbn [mbind result_bind]. rewrite Heqds.
  cbn [mbind result_bind]. rewrite IH; [|intros n ?; apply Hnames; by right].
  cbn [mbind result_bind mret result_ret].
  case_bool_decide as Hds; [|done].
  apply Hiff in Hds as (key & Hkey & Hne). destruct Hne.
  apply column_fields_eq_lookup; [done|]. by right.
Qed.

Lemma difference_self (X : gset value) : X ∖ X = ∅.
Proof.
  apply set_eq. intros x. rewrite elem_of_difference. split.
  - by intros [? ?].
  - by intros ?%elem_of_empty.
Qed.

Lemma lift_ok {A : Type} (r : result A) (a : A) st :
  r = Ok a → lift r st = (st, Ok a).
Proof. by intros ->. Qed.

(** C10.  For a table whose columns bear distinct names and have the
    compared fields, and whose modified column list holds the same columns
    (the same values in the compared fields) in another order: the positional
    check classifies the table as changed, while the detail section writes
    nothing after its heading: no added, no removed and no modified
    column. *)
Theorem C10_reordered_columns_changed_with_empty_delta (o : set_order)
    (baseline_cols modified_cols : list record) :
  cols_order_ok o →
  Forall (has_fields table_compare_keys) baseline_cols →
  NoDup (column_name <$> baseline_cols) →
  column_fields <$> baseline_cols ≡ₚ column_fields <$> modified_cols →
  column_fields <$> baseline_cols ≠ column_fields <$> modified_cols →
  _table_definitions_differ baseline_cols modified_cols = Ok true ∧
  ∀ file st,
    write_column_changes file o baseline_cols modified_cols st = (st, Ok ()).
Proof.
  intros Ho Hb Hnd Hperm Hne.
  assert (length baseline_cols = length modified_cols) as Hlen.
  { apply Permutation_length in Hperm. by rewrite !length_fmap in Hperm. }
  assert (Forall (has_fields table_compare_keys) modified_cols) as Hm.
  { assert (Forall (Forall is_Some) (column_fields <$> modified_cols)) as HF.
    { rewrite <-Hperm, Forall_fmap. eapply Forall_impl; [exact Hb|].
      intros col. apply has_fields_column_fields. }
    rewrite Forall_fmap in HF. eapply Forall_impl; [exact HF|].
    intros col. apply has_fields_column_fields. }
  assert (column_name <$> baseline_cols ≡ₚ column_name <$> modified_cols)
    as Hnames.
  { assert (∀ l : list record, column_name <$> l =
                 (default None ∘ head) <$> (column_fields <$> l)) as Hn.
    { intros l. by rewrite <-list_fmap_compose. }
    rewrite !Hn. by apply fmap_Permutation. }
  assert (NoDup (column_name <$> modified_cols)) as Hnd'.
  { by rewrite <-Hnames. }
  split.
  - destruct (table_definitions_differ_ok _ _ Hlen Hb Hm) as (d & -> & Hiff).
    f_equal. apply Hiff.
    destruct (list_neq_lookup (column_fields <$> baseline_cols)
                (column_fields <$> modified_cols))
      as (i & x & y & Hx & Hy & Hxy); [by rewrite !length_fmap|done|].
    rewrite list_lookup_fmap in Hx. rewrite list_lookup_fmap in Hy.
    destruct (baseline_cols !! i) as [b_col|] eqn:Hbi; [|done].
    destruct (modified_cols !! i) as [m_col|] eqn:Hmi; [|done].
    injection Hx as <-. injection Hy as <-.
    apply column_fields_neq_lookup in Hxy as (key & ? & ?).
    by exists i, b_col, m_col, key.
  - destruct (cols_dict_lookup baseline_cols Hb Hnd) as (db & Hdb & Hlb).
    destruct (cols_dict_lookup modified_cols Hm Hnd') as (dm & Hdm & Hlm).
    assert (∀ name b m, db !! name = Some b → dm !! name = Some m →
                        column_fields b = column_fields m) as Hsame.
    { intros name b m [Hbin Hbn]%Hlb [Hmin Hmn]%Hlm.
      assert (column_fields m ∈ column_fields <$> baseline_cols) as Hin.
      { rewrite Hperm. by apply list_elem_of_fmap_2. }
      apply list_elem_of_fmap in Hin as (b' & Heq & Hb'in).
      assert (b' = b) as ->; [|done].
      apply (NoDup_fmap_eq column_name baseline_cols); [done..|].
      by rewrite Hbn, <-Hmn, !column_name_column_fields, Heq. }
    assert (dom db = dom dm) as Hdom.
    { apply set_eq. intros name. rewrite !elem_of_dom. split.
      - intros [b [Hbin Hbn]%Hlb].
        assert (Some name ∈ column_name <$> modified_cols) as Hin.
        { rewrite <-Hnames, <-Hbn. by apply list_elem_of_fmap_2. }
        apply list_elem_of_fmap in Hin as (m & Hmn & Hmin).
        exists m. by apply Hlm.
      - intros [m [Hmin Hmn]%Hlm].
        assert (Some name ∈ column_name <$> baseline_cols) as Hin.
        { rewrite Hnames, <-Hmn. by apply list_elem_of_fmap_2. }
        apply list_elem_of_fmap in Hin as (b & Hbn & Hbin).
        exists b. by apply Hlb. }
    intros file st. unfold write_column_changes.
    rewrite (bind_ok _ _ st st db (lift_ok _ _ _ Hdb)).
    rewrite (bind_ok _ _ st st dm (lift_ok _ _ _ Hdm)).
    assert (modified_columns db dm (iter_cols o (dom db ∩ dom dm)) = Ok [])
      as Hnone.
    { apply modified_columns_none. intros name Hin.
      apply (elem_of_iter_cols _ _ _ Ho) in Hin.
      apply elem_of_intersection in Hin
        as [[b Hbn]%elem_of_dom [m Hmn]%elem_of_dom].
      exists b, m. split_and!; [done..| |by eapply Hsame].
      apply Hlb in Hbn as [Hbin _].
      rewrite Forall_forall in Hb. by apply Hb. }
    rewrite Hdom in Hnone |- *.
    rewrite difference_self.
    rewrite (bool_decide_eq_false_2 (∅ ≠ ∅)) by (by intros []).
    rewrite (bind_ok _ _ st st () eq_refl).
    rewrite (bind_ok _ _ st st () eq_refl).
    rewrite (bind_ok _ _ st st [] (lift_ok _ _ _ Hnone)).
    done.
Qed.

(** ** The statements at sample inputs *)

(** Decidable side conditions on sample data are settled by evaluation. *)
Ltac by_evaluation := apply (bool_decide_unpack _); vm_compute; exact I.

(** C1 at a table that gained three columns, and at a one-column table
    whose column changed its type. *)
Lemma C1_table_comparison_is_positional_witness :
  _table_definitions_differ narrow_table wide_table = Ok true ∧
  ∃ d, _table_definitions_differ narrow_table [sample_column "ID" "BIGINT" 8]
         = Ok d ∧
       (d = true ↔
        ∃ i b_col m_col key,
          narrow_table !! i = Some b_col ∧
          [sample_column "ID" "BIGINT" 8] !! i = Some m_col ∧
          key ∈ table_compare_keys ∧ b_col !! key ≠ m_col !! key).
Proof.
  split.
  - apply (proj1 (C1_table_comparison_is_positional narrow_table wide_table)).
    cbn. lia.
  - apply (proj1 (proj2 (C1_table_comparison_is_positional narrow_table
                           [sample_column "ID" "BIGINT" 8]))).
    + reflexivity.
    + by_evaluation.
    + by_evaluation.
Defined.

(** C3 at the procedure [SALES.TOTAL], rewritten from SQL to C. *)
Lemma C3_scalar_changed_iff_field_differs_witness :
  ∃ changed,
    find_modified_scalar Procedure hash_order procs_baseline procs_modified
      = Ok changed ∧
    ∀ key b m,
      procs_baseline !! key = Some b → procs_modified !! key = Some m →
      (key ∈ changed ↔ ∃ f, f ∈ compare_keys Procedure ∧ b !! f ≠ m !! f).
Proof.
  apply (C3_scalar_changed_iff_field_differs Procedure hash_order
           procs_baseline procs_modified).
  - intros X. reflexivity.
  - by_evaluation.
  - by_evaluation.
Defined.

(** C7 at the sample groupings of procedures and of tables. *)
Lemma C7_categories_are_disjoint_witness :
  (∃ changed,
     find_modified_scalar Procedure hash_order procs_baseline procs_modified
       = Ok changed ∧
     partition_of (definitions_differ Procedure)
       procs_baseline procs_modified changed) ∧
  (∃ changed,
     _find_modified_tables hash_order tables_baseline tables_modified
       = Ok changed ∧
     partition_of _table_definitions_differ
       tables_baseline tables_modified changed).
Proof.
  destruct (C7_categories_are_disjoint hash_order) as [Hscalar Htables].
  - intros X. reflexivity.
  - split.
    + apply Hscalar; by_evaluation.
    + apply Htables; by_evaluation.
Defined.

(** C8 at the sample groupings, one run visiting the keys in the order of
    [hash_order] and the other backwards. *)
Lemma C8_swapping_baseline_and_modified_witness :
  (new_keys procs_baseline procs_modified =
     dropped_keys procs_modified procs_baseline ∧
   dropped_keys procs_baseline procs_modified =
     new_keys procs_modified procs_baseline ∧
   ∃ changed_ab changed_ba,
     find_modified_scalar Procedure hash_order procs_baseline procs_modified
       = Ok changed_ab ∧
     find_modified_scalar Procedure reversed_order procs_modified procs_baseline
       = Ok changed_ba ∧
     ∀ key, key ∈ changed_ab ↔ key ∈ changed_ba) ∧
  (new_keys tables_baseline tables_modified =
     dropped_keys tables_modified tables_baseline ∧
   dropped_keys tables_baseline tables_modified =
     new_keys tables_modified tables_baseline ∧
   ∃ changed_ab changed_ba,
     _find_modified_tables hash_order tables_baseline tables_modified
       = Ok changed_ab ∧
     _find_modified_tables reversed_order tables_modified tables_baseline
       = Ok changed_ba ∧
     ∀ key, key ∈ changed_ab ↔ key ∈ changed_ba).
Proof.
  destruct (C8_swapping_baseline_and_modified hash_order reversed_order)
    as [Hscalar Htables].
  - intros X. reflexivity.
  - intros X. cbn. apply reverse_Permutation.
  - split.
    + apply Hscalar; by_evaluation.
    + apply Htables; by_evaluation.
Defined.

(** C9 at two catalog rows of the procedure [SALES.TOTAL]. *)
Lemma C9_grouping_keeps_last_record_witness :
  ∃ g, group_by Procedure [sample_proc "SQL"; sample_proc "C"] = Ok g ∧
       ∀ key, g !! key =
              last (records_with_key Procedure key
                      [sample_proc "SQL"; sample_proc "C"]).
Proof.
  apply (C9_grouping_keeps_last_record Procedure
           [sample_proc "SQL"; sample_proc "C"]).
  by_evaluation.
Defined.

(** C4 (as the code has it) at the same two rows. *)
Lemma C4_grouping_accepts_repeated_keys_witness :
  ∃ g, group_by Procedure [sample_proc "SQL"; sample_proc "C"] = Ok g ∧
       ∀ key, key ∈ dom g ↔
              ∃ r, r ∈ [sample_proc "SQL"; sample_proc "C"] ∧
                   scalar_key Procedure r = Ok key.
Proof.
  apply (proj1 (C4_grouping_accepts_repeated_keys Procedure
                  [sample_proc "SQL"; sample_proc "C"])).
  by_evaluation.
Defined.

(** C10 at a table of two columns that changed places. *)
Lemma C10_reordered_columns_changed_with_empty_delta_witness :
  _table_definitions_differ table_ab table_ba = Ok true ∧
  ∀ file st,
    write_column_changes file hash_order table_ab table_ba st = (st, Ok ()).
Proof.
  apply (C10_reordered_columns_changed_with_empty_delta hash_order
           table_ab table_ba).
  - intros X. reflexivity.
  - by_evaluation.
  - by_evaluation.
  - apply perm_swap.
  - by_evaluation.
Defined.

(** * Further properties of the code *)

(** ** Grouping the rows of the table query *)

Lemma table_key_ok (t : record) :
  has_fields table_key_fields t → ∃ key, table_key t = Ok key.
Proof.
  unfold table_key_fields. rewrite !has_fields_cons. intros ([s Hs] & [n Hn] & _).
  unfold table_key.
  rewrite (getitem_Some _ _ _ Hs), (getitem_Some _ _ _ Hn). cbn. eauto.
Qed.

(** The grouping loop from any dictionary built so far: the rows of a table
    are appended, in input order, to the list the table had. *)
Lemma group_by_table_fold (tables : list record)
    (g0 : gmap string (list record)) :
  Forall (has_fields table_key_fields) tables →
  ∃ g, foldl _group_by_table_step (Ok g0) tables = Ok g ∧
       ∀ key, g !! key =
              match rows_of_table key tables with
              | [] => g0 !! key
              | _ :: _ => Some (default [] (g0 !! key) ++ rows_of_table key tables)
              end.
Proof.
  intros Htables. revert g0.
  induction Htables as [|t tables Ht Htables IH]; intros g0.
  - exists g0. by split.
  - destruct (table_key_ok t Ht) as [key_t Hkey].
    set (g1 := <[key_t := default [] (g0 !! key_t) ++ [t]]> g0).
    assert (_group_by_table_step (Ok g0) t = Ok g1) as Hstep.
    { unfold _group_by_table_step. cbn. by rewrite Hkey. }
    cbn [foldl]. rewrite Hstep.
    destruct (IH g1) as (g & Hg & Hlook).
    exists g. split; [done|]. intros key. rewrite Hlook.
    unfold rows_of_table. rewrite filter_cons.
    destruct (decide (table_key t = Ok key)) as [Heq|Hne].
    + assert (key_t = key) as -> by congruence.
      unfold g1. rewrite lookup_insert_eq. cbn.
      destruct (filter _ tables); [done|]. by rewrite <-(assoc_L (++)).
    + unfold g1. rewrite lookup_insert_ne; [done|]. intros ->. done.
Qed.

(** X1.  [_group_by_table] on rows that carry the schema and the table
    name: the grouping holds, for each qualified key met in the input, exactly
    the rows of that table in the order they came in, and holds no other
    key. *)
Theorem X1_group_by_table_keeps_row_order (tables : list record) :
  Forall (has_fields table_key_fields) tables →
  ∃ g, _group_by_table tables = Ok g ∧
       ∀ key, g !! key =
              match rows_of_table key tables with
              | [] => None
              | _ :: _ => Some (rows_of_table key tables)
              end.
Proof.
  intros Htables.
  destruct (group_by_table_fold tables ∅ Htables) as (g & Hg & Hlook).
  exists g. split; [done|]. intros key. rewrite Hlook, lookup_empty.
  by destruct (rows_of_table key tables).
Qed.

Lemma X1_group_by_table_keeps_row_order_witness :
  ∃ g, _group_by_table wide_table_rows = Ok g ∧
       ∀ key, g !! key =
              match rows_of_table key wide_table_rows with
              | [] => None
              | _ :: _ => Some (rows_of_table key wide_table_rows)
              end.
Proof.
  apply (X1_group_by_table_keeps_row_order wide_table_rows). by_evaluation.
Defined.

(** ** Missing fields *)

(** Erasing the text of the differences, the two field loops are one. *)
Lemma column_differences_any keys (b m : record) :
  any_difference (column_differences keys b m) =
  any_difference (scalar_differences keys b m).
Proof.
  induction keys as [|key keys IH]; [done|].
  cbn [column_differences scalar_differences]. unfold getitem.
  destruct (b !! key) as [bv|], (m !! key) as [mv|]; cbn; try done.
  unfold any_difference in IH.
  destruct (column_differences keys b m) as [d1|e1],
           (scalar_differences keys b m) as [d2|e2]; cbn in *; try done.
  destruct (py_ne bv mv); [|exact IH].
  by rewrite !bool_decide_eq_true_2.
Qed.

(** The field loop raises for the first key that either record lacks, and
    otherwise tells whether some key has unequal values. *)
Lemma scalar_differences_any keys (b m : record) :
  any_difference (scalar_differences keys b m) =
  match first_missing keys b m with
  | Some key => Raise (KeyError (VStr key))
  | None => Ok (some_field_differs keys b m)
  end.
Proof.
  unfold first_missing, some_field_differs.
  induction keys as [|key keys IH]; [done|].
  cbn [scalar_differences]. unfold getitem. rewrite filter_cons.
  destruct (b !! key) as [bv|] eqn:Hb; cycle 1.
  { by rewrite decide_True by by left. }
  destruct (m !! key) as [mv|] eqn:Hm; cycle 1.
  { by rewrite decide_True by by right. }
  rewrite decide_False by (by intros [|]). cbn [mbind result_bind].
  unfold any_difference in IH.
  destruct (scalar_differences keys b m) as [ds|e]; cbn in IH |- *.
  - destruct (head _) as [?|]; [done|]. injection IH as IH. f_equal.
    destruct (py_ne bv mv) eqn:Hne.
    + apply py_ne_true in Hne. rewrite bool_decide_eq_true_2 by done.
      symmetry. apply bool_decide_eq_true_2. left. congruence.
    + rewrite IH. apply bool_decide_ext. rewrite Exists_cons.
      split; [by right|]. intros [Hd|?]; [|done].
      destruct (decide (bv = mv)) as [->|Hd']; [congruence|].
      apply py_ne_true in Hd'. congruence.
  - by destruct (head _).
Qed.

(** X2.  The comparison of two procedures, triggers or functions raises
    the [KeyError] of the first compared field that either record lacks,
    even when an earlier field already differs; with all fields present it
    answers whether some field has unequal values.  The check of one pair of
    columns in the table comparison behaves the same way. *)
Theorem X2_comparison_raises_for_first_missing_field (b m : record) :
  (∀ k, definitions_differ k b m =
        match first_missing (compare_keys k) b m with
        | Some key => Raise (KeyError (VStr key))
        | None => Ok (some_field_differs (compare_keys k) b m)
        end) ∧
  any_difference (column_differences table_compare_keys b m) =
    match first_missing table_compare_keys b m with
    | Some key => Raise (KeyError (VStr key))
    | None => Ok (some_field_differs table_compare_keys b m)
    end.
Proof.
  split.
  - intros k. apply scalar_differences_any.
  - rewrite column_differences_any. apply scalar_differences_any.
Qed.

(** ** Comparing a grouping with itself *)

Lemma definitions_differ_refl k (r : record) :
  has_fields (compare_keys k) r → definitions_differ k r r = Ok false.
Proof.
  intros Hr. destruct (definitions_differ_ok k r r Hr Hr) as (d & -> & Hiff).
  f_equal. destruct d; [|done]. by destruct (proj1 Hiff eq_refl) as (f & _ & ?).
Qed.

Lemma table_definitions_differ_refl (cols : list record) :
  Forall (has_fields table_compare_keys) cols →
  _table_definitions_differ cols cols = Ok false.
Proof.
  intros Hcols.
  destruct (table_definitions_differ_ok cols cols eq_refl Hcols Hcols)
    as (d & -> & Hiff).
  f_equal. destruct d; [|done].
  destruct (proj1 Hiff eq_refl) as (i & b & m & key & Hb & Hm & _ & Hne).
  congruence.
Qed.

Lemma find_modified_self {V : Type} (differ : V → V → result bool)
    (o : set_order) (g : gmap string V) :
  keys_order_ok o →
  (∀ key v, g !! key = Some v → differ v v = Ok false) →
  find_modified differ o g g = Ok [].
Proof.
  intros Ho Hrefl.
  destruct (find_modified_ok differ o g g Ho) as (changed & -> & Hiff).
  { intros key b m Hb Hm. exists false.
    assert (b = m) as -> by congruence. by eapply Hrefl. }
  f_equal. destruct changed as [|key changed]; [done|].
  destruct (proj1 (Hiff key)) as (b & m & Hb & Hm & Hd); [left|].
  assert (b = m) as -> by congruence.
  rewrite (Hrefl key m Hm) in Hd. done.
Qed.

Lemma difference_self_keys (X : gset string) : X ∖ X = ∅.
Proof.
  apply set_eq. intros x. rewrite elem_of_difference. split.
  - by intros [? ?].
  - by intros ?%elem_of_empty.
Qed.

(** X3.  Comparing a grouping with itself reports nothing: no key is
    added, none is removed and, the records having the compared fields, none
    is changed; for procedures, triggers and functions and for tables. *)
Theorem X3_self_comparison_is_empty (o : set_order) :
  keys_order_ok o →
  (∀ k (g : gmap string record),
     scalar_grouping_ok k g →
     new_keys g g = ∅ ∧ dropped_keys g g = ∅ ∧
     find_modified_scalar k o g g = Ok []) ∧
  (∀ g : gmap string (list record),
     table_grouping_ok g →
     new_keys g g = ∅ ∧ dropped_keys g g = ∅ ∧
     _find_modified_tables o g g = Ok []).
Proof.
  intros Ho. split.
  - intros k g Hg. split_and!; [apply difference_self_keys..|].
    apply find_modified_self; [done|]. intros key r Hr.
    apply definitions_differ_refl. by eapply Hg.
  - intros g Hg. split_and!; [apply difference_self_keys..|].
    apply find_modified_self; [done|]. intros key cols Hcols.
    apply table_definitions_differ_refl. by eapply Hg.
Qed.

Lemma X3_self_comparison_is_empty_witness :
  (new_keys procs_baseline procs_baseline = ∅ ∧
   dropped_keys procs_baseline procs_baseline = ∅ ∧
   find_modified_scalar Procedure hash_order procs_baseline procs_baseline
     = Ok []) ∧
  (new_keys tables_modified tables_modified = ∅ ∧
   dropped_keys tables_modified tables_modified = ∅ ∧
   _find_modified_tables hash_order tables_modified tables_modified = Ok []).
Proof.
  destruct (X3_self_comparison_is_empty hash_order) as [Hscalar Htables].
  - intros X. reflexivity.
  - split.
    + apply Hscalar. by_evaluation.
    + apply Htables. by_evaluation.
Defined.

(** ** The list of changed keys *)

Lemma find_modified_loop_sublist {V : Type} (differ : V → V → result bool)
    (baseline modified : gmap string V) keys changed :
  find_modified_loop differ baseline modified keys = Ok changed →
  sublist changed keys.
Proof.
  revert changed. induction keys as [|key keys IH]; intros changed.
  - intros [= <-]. constructor.
  - cbn [find_modified_loop].
    destruct (dict_get baseline key) as [b|]; [|done].
    destruct (dict_get modified key) as [m|]; [|done]. cbn.
    destruct (differ b m) as [d|]; [|done]. cbn.
    destruct (find_modified_loop differ baseline modified keys) as [rest|];
      [|done].
    cbn. intros [= <-]. destruct d.
    + apply sublist_skip. by apply IH.
    + apply sublist_cons. by apply IH.
Qed.

Lemma iter_keys_NoDup o (X : gset string) :
  keys_order_ok o → NoDup (iter_keys o X).
Proof. intros Ho. rewrite (Ho X). apply NoDup_elements. Qed.

Lemma find_modified_NoDup {V : Type} (differ : V → V → result bool)
    o (baseline modified : gmap string V) changed :
  keys_order_ok o →
  find_modified differ o baseline modified = Ok changed →
  NoDup changed ∧ (length changed ≤ size (dom baseline ∩ dom modified))%nat.
Proof.
  intros Ho Hfind. apply find_modified_loop_sublist in Hfind. split.
  - eapply sublist_NoDup; [|exact Hfind]. by apply iter_keys_NoDup.
  - apply sublist_length in Hfind. etrans; [exact Hfind|].
    by rewrite (Ho _).
Qed.

(** X4.  The list of changed keys names each key once, and is no longer
    than the number of keys the two groupings share, so the count the summary
    prints after "Modified" counts objects; for procedures, triggers and
    functions and for tables. *)
Theorem X4_changed_keys_are_listed_once (o : set_order) :
  keys_order_ok o →
  (∀ k (baseline modified : gmap string record),
     scalar_grouping_ok k baseline → scalar_grouping_ok k modified →
     ∃ changed,
       find_modified_scalar k o baseline modified = Ok changed ∧
       NoDup changed ∧
       (length changed ≤ size (dom baseline ∩ dom modified))%nat) ∧
  (∀ baseline modified : gmap string (list record),
     table_grouping_ok baseline → table_grouping_ok modified →
     ∃ changed,
       _find_modified_tables o baseline modified = Ok changed ∧
       NoDup changed ∧
       (length changed ≤ size (dom baseline ∩ dom modified))%nat).
Proof.
  intros Ho. split.
  - intros k baseline modified Hb Hm.
    destruct (find_modified_ok (definitions_differ k) o baseline modified Ho)
      as (changed & Hchanged & _).
    { intros key b m ? ?.
      destruct (definitions_differ_ok k b m) as (d & ? & _); eauto. }
    exists changed. split; [done|]. by eapply find_modified_NoDup.
  - intros baseline modified Hb Hm.
    destruct (find_modified_ok _table_definitions_differ o baseline modified Ho)
      as (changed & Hchanged & _).
    { intros key b m ? ?. apply table_definitions_differ_total; eauto. }
    exists changed. split; [done|]. by eapply find_modified_NoDup.
Qed.

Lemma X4_changed_keys_are_listed_once_witness :
  (∃ changed,
     find_modified_scalar Procedure hash_order procs_baseline procs_modified
       = Ok changed ∧
     NoDup changed ∧
     (length changed ≤ size (dom procs_baseline ∩ dom procs_modified))%nat) ∧
  (∃ changed,
     _find_modified_tables hash_order tables_baseline tables_modified
       = Ok changed ∧
     NoDup changed ∧
     (length changed ≤ size (dom tables_baseline ∩ dom tables_modified))%nat).
Proof.
  destruct (X4_changed_keys_are_listed_once hash_order) as [Hscalar Htables].
  - intros X. reflexivity.
  - split.
    + apply Hscalar; by_evaluation.
    + apply Htables; by_evaluation.
Defined.

(** Two runs that visit the common keys in different orders find the same
    changed keys, so they write them in the same order and count. *)
Lemma find_modified_reproducible {V : Type} (differ : V → V → result bool)
    (o1 o2 : set_order) (baseline modified : gmap string V) :
  keys_order_ok o1 → keys_order_ok o2 →
  (∀ key b m, baseline !! key = Some b → modified !! key = Some m →
              ∃ d, differ b m = Ok d) →
  ∃ changed1 changed2,
    find_modified differ o1 baseline modified = Ok changed1 ∧
    find_modified differ o2 baseline modified = Ok changed2 ∧
    sorted changed1 = sorted changed2 ∧
    length changed1 = length changed2.
Proof.
  intros Ho1 Ho2 Htotal.
  destruct (find_modified_ok differ o1 baseline modified Ho1 Htotal)
    as (c1 & Hc1 & Hiff1).
  destruct (find_modified_ok differ o2 baseline modified Ho2 Htotal)
    as (c2 & Hc2 & Hiff2).
  exists c1, c2. split; [done|]. split; [done|].
  assert (c1 ≡ₚ c2) as Hperm.
  { apply NoDup_Permutation.
    - by eapply (find_modified_NoDup differ o1).
    - by eapply (find_modified_NoDup differ o2).
    - intros key. by rewrite Hiff1, Hiff2. }
  split; [|by rewrite Hperm].
  apply (StronglySorted_unique String.le); try apply sorted_spec.
  by rewrite !(proj2 (sorted_spec _)).
Qed.

(** X5.  Whatever order the two runs visit the common keys in, they report
    the same changed keys in the same (ascending) order and the same count;
    for procedures, triggers and functions and for tables. *)
Theorem X5_changed_keys_are_reproducible (o1 o2 : set_order) :
  keys_order_ok o1 → keys_order_ok o2 →
  (∀ k (baseline modified : gmap string record),
     scalar_grouping_ok k baseline → scalar_grouping_ok k modified →
     ∃ changed1 changed2,
       find_modified_scalar k o1 baseline modified = Ok changed1 ∧
       find_modified_scalar k o2 baseline modified = Ok changed2 ∧
       sorted changed1 = sorted changed2 ∧
       length changed1 = length changed2) ∧
  (∀ baseline modified : gmap string (list record),
     table_grouping_ok baseline → table_grouping_ok modified →
     ∃ changed1 changed2,
       _find_modified_tables o1 baseline modified = Ok changed1 ∧
       _find_modified_tables o2 baseline modified = Ok changed2 ∧
       sorted changed1 = sorted changed2 ∧
       length changed1 = length changed2).
Proof.
  intros Ho1 Ho2. split.
  - intros k baseline modified Hb Hm.
    apply find_modified_reproducible; [done..|]. intros key b m ? ?.
    destruct (definitions_differ_ok k b m) as (d & ? & _); eauto.
  - intros baseline modified Hb Hm.
    apply find_modified_reproducible; [done..|]. intros key b m ? ?.
    apply table_definitions_differ_total; eauto.
Qed.

Lemma X5_changed_keys_are_reproducible_witness :
  (∃ changed1 changed2,
     find_modified_scalar Procedure hash_order procs_baseline procs_modified
       = Ok changed1 ∧
     find_modified_scalar Procedure reversed_order procs_baseline procs_modified
       = Ok changed2 ∧
     sorted changed1 = sorted changed2 ∧
     length changed1 = length changed2) ∧
  (∃ changed1 changed2,
     _find_modified_tables hash_order tables_baseline tables_modified
       = Ok changed1 ∧
     _find_modified_tables reversed_order tables_baseline tables_modified
       = Ok changed2 ∧
     sorted changed1 = sorted changed2 ∧
     length changed1 = length changed2).
Proof.
  destruct (X5_changed_keys_are_reproducible hash_order reversed_order)
    as [Hscalar Htables].
  - intros X. reflexivity.
  - intros X. cbn. apply reverse_Permutation.
  - split.
    + apply Hscalar; by_evaluation.
    + apply Htables; by_evaluation.
Defined.

(** ** Fetching rows *)








(** ** What the report writers touch *)

Section only_reports.
Context (files : list string).

Lemma only_reports_ret {A : Type} (a : A) : only_reports files (mret a).
Proof.
  intros st. exists []. split; [|constructor].
  destruct st. cbn. by rewrite (right_id_L [] (++)).
Qed.

Lemma only_reports_lift {A : Type} (r : result A) : only_reports files (lift r).
Proof.
  intros st. exists []. split; [|constructor].
  destruct st. cbn. by rewrite (right_id_L [] (++)).
Qed.

Lemma only_reports_get_state : only_reports files get_state.
Proof.
  intros st. exists []. split; [|constructor].
  destruct st. cbn. by rewrite (right_id_L [] (++)).
Qed.

Lemma only_reports_write file text :
  file ∈ files → only_reports files (write file text).
Proof. intros Hin st. exists [FileWrite file text]. split; [done|]. by repeat constructor. Qed.

Lemma only_reports_open file :
  file ∈ files → only_reports files (open file).
Proof. intros Hin st. exists [FileOpen file]. split; [done|]. by repeat constructor. Qed.

Lemma only_reports_bind {A B : Type} (m : M A) (f : A → M B) :
  only_reports files m → (∀ a, only_reports files (f a)) →
  only_reports files (m ≫= f).
Proof.
  intros Hm Hf st. destruct (Hm st) as (evs & Hst & Hevs).
  unfold mbind, M_bind. destruct (m st) as [st' [a|e]]; cbn in Hst.
  - destruct (Hf a st') as (evs' & Hst' & Hevs'). subst st'. cbn in Hst'.
    exists (evs ++ evs'). split; [by rewrite (assoc_L (++))|].
    by apply Forall_app.
  - by exists evs.
Qed.

Lemma only_reports_when (cond : bool) (body : M unit) :
  only_reports files body → only_reports files (when cond body).
Proof. intros Hbody. destruct cond; [done|]. apply only_reports_ret. Qed.

Lemma only_reports_for_each {A : Type} (body : A → M unit) (xs : list A) :
  (∀ x, only_reports files (body x)) → only_reports files (for_each body xs).
Proof.
  intros Hbody. induction xs as [|x xs IH]; cbn [for_each].
  - apply only_reports_ret.
  - by apply only_reports_bind.
Qed.
End only_reports.

Lemma only_reports_mono {A : Type} (files files' : list string) (m : M A) :
  files ⊆ files' → only_reports files m → only_reports files' m.
Proof.
  intros Hsub Hm st. destruct (Hm st) as (evs & Hst & Hevs).
  exists evs. split; [done|]. eapply Forall_impl; [exact Hevs|].
  intros [f|f t|?|?]; cbn; auto.
Qed.

(** Goals of the form [only_reports files m] are settled along the
    structure of [m]. *)
Ltac reports_step :=
  first
    [ apply only_reports_bind; [|intros ?]
    | apply only_reports_lift
    | apply only_reports_ret
    | apply only_reports_get_state
    | apply only_reports_when
    | apply only_reports_for_each; intros ?
    | apply only_reports_write; solve [repeat constructor]
    | apply only_reports_open; solve [repeat constructor]
    | match goal with
      | |- only_reports _ (if ?c then _ else _) => destruct c
      | |- only_reports _ (let '(_, _) := ?p in _) => destruct p
      | |- only_reports _ (match ?c with _ => _ end) => destruct c
      end ].

Ltac reports := repeat reports_step.

Lemma write_column_only_reports file col :
  only_reports [file] (write_column file col).
Proof. unfold write_column. reports. Qed.

Lemma write_table_definition_only_reports file cols :
  only_reports [file] (_write_table_definition file cols).
Proof. unfold _write_table_definition. reports. Qed.

Lemma write_table_differences_detail_only_reports file o b m :
  only_reports [file] (_write_table_differences_detail file o b m).
Proof.
  unfold _write_table_differences_detail, write_detail_header,
    write_column_changes.
  reports.
Qed.

Lemma compare_tables_only_reports (db : ibm_db) (o : set_order) :
  only_reports ["tables_diff.log"] (compare_tables db o).
Proof. unfold compare_tables, write_tables_section. reports. Qed.

Lemma compare_scalar_only_reports (db : ibm_db) (o : set_order) k :
  only_reports (report_files k) (compare_scalar db o k).
Proof.
  unfold compare_scalar, write_summary_list, write_detail_file.
  reports; destruct k; reports.
Qed.

(** X7.  A comparison never touches the connections and never closes one:
    whether it returns or raises, [compare_tables] only opens and writes
    [tables_diff.log], and the comparison of procedures, triggers or
    functions only opens and writes the four report files of its own kind. *)
Theorem X7_comparisons_only_write_their_reports (db : ibm_db) (o : set_order) :
  only_reports ["tables_diff.log"] (compare_tables db o) ∧
  ∀ k, only_reports (report_files k) (compare_scalar db o k).
Proof.
  split.
  - apply compare_tables_only_reports.
  - intros k. apply compare_scalar_only_reports.
Qed.

(** ** Connections *)

Lemma try_finally_close {A : Type} (body : M A) st0 :
  try_finally body close st0 =
    (State (baseline_conn (body st0).1) (modified_conn (body st0).1)
       (trace (body st0).1 ++ closing (body st0).1),
     (body st0).2).
Proof.
  unfold try_finally. destruct (body st0) as [st r]. by rewrite close_spec.
Qed.

(** The three ways [connect] can end, from the state of a new comparator. *)
Lemma connect_spec (db : ibm_db) (baseline_config modified_config : DbConfig) :
  connect db baseline_config modified_config (State None None []) =
  match ibm_connect db (get_connection_string baseline_config) with
  | Raise e =>
      (State None None
         [LogError ("Failed to connect to databases: " +:+ exn_str e)],
       Raise e)
  | Ok h1 =>
      match ibm_connect db (get_connection_string modified_config) with
      | Raise e =>
          (State (Some h1) None
             [LogError ("Failed to connect to databases: " +:+ exn_str e)],
           Raise e)
      | Ok h2 => (State (Some h1) (Some h2) [], Ok ())
      end
  end.
Proof.
  unfold connect, try_except, mbind, M_bind, lift. cbn.
  destruct (ibm_connect db (get_connection_string baseline_config)); [|done].
  cbn. by destruct (ibm_connect db (get_connection_string modified_config)).
Qed.

Lemma comparisons_only_report (db : ibm_db) (o : set_order) :
  only_reports all_report_files
    (compare_tables db o;; compare_procedures db o;;
     compare_triggers db o;; compare_functions db o).
Proof.
  assert (∀ k, report_files k ⊆ all_report_files) as Hsub.
  { intros [] f Hf; unfold all_report_files;
      repeat (apply elem_of_cons in Hf as [->|Hf]); try by_evaluation;
      by apply elem_of_nil in Hf. }
  assert (∀ k, only_reports all_report_files (compare_scalar db o k))
    as Hscalar.
  { intros k. eapply only_reports_mono; [apply Hsub|].
    apply compare_scalar_only_reports. }
  apply (only_reports_bind _ (compare_tables db o)).
  { eapply only_reports_mono; [|apply compare_tables_only_reports].
    intros f ->%list_elem_of_singleton. left. }
  intros _. apply (only_reports_bind _ (compare_procedures db o)).
  { apply Hscalar. }
  intros _. apply (only_reports_bind _ (compare_triggers db o)).
  { apply Hscalar. }
  intros _. apply Hscalar.
Qed.

Lemma about_files_not_closing files evs :
  Forall (about_files files) evs → Forall not_closing evs.
Proof. intros H. eapply Forall_impl; [exact H|]. by intros []. Qed.

(** X8.  However a run ends, it holds exactly the connections that
    [ibm_db.connect] gave it (the modified one only if the baseline one was
    opened too), it closes each of them once, as its last events, and it
    closes nothing before that. *)
Theorem X8_main_closes_what_it_opened (db : ibm_db) (o : set_order)
    (baseline_config modified_config : DbConfig) :
  baseline_conn (main db o baseline_config modified_config).1 =
    handle_of (ibm_connect db (get_connection_string baseline_config)) ∧
  modified_conn (main db o baseline_config modified_config).1 =
    match handle_of (ibm_connect db (get_connection_string baseline_config))
    with
    | Some _ =>
        handle_of (ibm_connect db (get_connection_string modified_config))
    | None => None
    end ∧
  ∃ evs,
    trace (main db o baseline_config modified_config).1 =
      evs ++ closing (main db o baseline_config modified_config).1 ∧
    Forall not_closing evs.
Proof.
  unfold main. rewrite try_finally_close. cbn [fst].
  unfold main_body.
  pose proof (connect_spec db baseline_config modified_config) as Hconnect.
  destruct (ibm_connect db (get_connection_string baseline_config))
    as [h1|e1]; cbn [handle_of].
  2:{ rewrite (bind_raise _ _ _ _ _ Hconnect). cbn. split_and!; [done..|].
      eexists [_]. split; [reflexivity|]. by repeat constructor. }
  destruct (ibm_connect db (get_connection_string modified_config))
    as [h2|e2]; cbn [handle_of].
  2:{ rewrite (bind_raise _ _ _ _ _ Hconnect). cbn. split_and!; [done..|].
      eexists [_]. split; [reflexivity|]. by repeat constructor. }
  rewrite (bind_ok _ _ _ _ _ Hconnect).
  destruct (comparisons_only_report db o (State (Some h1) (Some h2) []))
    as (evs & -> & Hevs).
  cbn. split_and!; [done..|]. exists evs. split; [done|].
  by eapply about_files_not_closing.
Qed.



(** ** A comparison that raises *)

Lemma fetch_all_ok (db : ibm_db) (h : nat) (q : catalog_query) rows :
  ibm_exec_immediate db h q = Ok rows →
  _fetch_all db (Some h) q = Ok (fetch_loop rows).
Proof. intros Hexec. unfold _fetch_all. by rewrite Hexec. Qed.

(** X10.  [compare_tables] opens [tables_diff.log] before it looks for the
    modified tables: when both queries and both groupings succeed and that
    search raises, the run is left with a report file that was opened (and so
    emptied) and never written. *)
Theorem X10_tables_report_is_opened_before_comparing (db : ibm_db)
    (o : set_order) (st : state) (hb hm : nat) (rows_b rows_m : list row)
    (baseline_dict modified_dict : gmap string (list record)) (e : exn) :
  baseline_conn st = Some hb →
  modified_conn st = Some hm →
  ibm_exec_immediate db hb TableQuery = Ok rows_b →
  ibm_exec_immediate db hm TableQuery = Ok rows_m →
  _group_by_table (fetch_loop rows_b) = Ok baseline_dict →
  _group_by_table (fetch_loop rows_m) = Ok modified_dict →
  _find_modified_tables o baseline_dict modified_dict = Raise e →
  compare_tables db o st =
    (State (Some hb) (Some hm) (trace st ++ [FileOpen "tables_diff.log"]),
     Raise e).
Proof.
  intros Hb Hm Hrb Hrm Hgb Hgm Hfind. unfold compare_tables.
  rewrite (bind_ok _ _ st st st eq_refl). rewrite Hb, Hm.
  rewrite (bind_ok _ _ st st _ (lift_ok _ _ _ (fetch_all_ok _ _ _ _ Hrb))).
  rewrite (bind_ok _ _ st st _ (lift_ok _ _ _ (fetch_all_ok _ _ _ _ Hrm))).
  rewrite (bind_ok _ _ st st _ (lift_ok _ _ _ Hgb)).
  rewrite (bind_ok _ _ st st _ (lift_ok _ _ _ Hgm)).
  cbn zeta.
  rewrite (bind_ok (open "tables_diff.log") _ st _ () eq_refl).
  rewrite Hb, Hm.
  erewrite bind_raise; [done|]. unfold lift. by rewrite Hfind.
Qed.

Lemma X10_tables_report_is_opened_before_comparing_witness :
  compare_tables upper_case_db hash_order connected =
    (State (Some 69) (Some 70) (trace connected ++ [FileOpen "tables_diff.log"]),
     Raise (KeyError (VStr "typename"))).
Proof.
  apply (X10_tables_report_is_opened_before_comparing upper_case_db hash_order
           connected 69 70 upper_case_rows upper_case_rows
           {[ "SALES.T" := fetch_loop upper_case_rows ]}
           {[ "SALES.T" := fetch_loop upper_case_rows ]});
    vm_compute; reflexivity.
Defined.

(** X11.  The comparison of procedures, triggers or functions looks for the
    modified objects before it opens any file: when both queries and both
    groupings succeed and that search raises, no report is opened or written
    and the state is as it was. *)
Theorem X11_scalar_reports_are_opened_after_comparing (db : ibm_db)
    (o : set_order) (k : scalar_kind) (st : state) (hb hm : nat)
    (rows_b rows_m : list row)
    (baseline_dict modified_dict : gmap string record) (e : exn) :
  baseline_conn st = Some hb →
  modified_conn st = Some hm →
  ibm_exec_immediate db hb (query_of k) = Ok rows_b →
  ibm_exec_immediate db hm (query_of k) = Ok rows_m →
  group_by k (fetch_loop rows_b) = Ok baseline_dict →
  group_by k (fetch_loop rows_m) = Ok modified_dict →
  find_modified_scalar k o baseline_dict modified_dict = Raise e →
  compare_scalar db o k st = (st, Raise e).
Proof.
  intros Hb Hm Hrb Hrm Hgb Hgm Hfind. unfold compare_scalar.
  rewrite (bind_ok _ _ st st st eq_refl). rewrite Hb, Hm.
  rewrite (bind_ok _ _ st st _ (lift_ok _ _ _ (fetch_all_ok _ _ _ _ Hrb))).
  rewrite (bind_ok _ _ st st _ (lift_ok _ _ _ (fetch_all_ok _ _ _ _ Hrm))).
  rewrite (bind_ok _ _ st st _ (lift_ok _ _ _ Hgb)).
  rewrite (bind_ok _ _ st st _ (lift_ok _ _ _ Hgm)).
  cbn zeta. erewrite bind_raise; [done|]. unfold lift. by rewrite Hfind.
Qed.

Lemma X11_scalar_reports_are_opened_after_comparing_witness :
  compare_scalar upper_case_db hash_order Procedure connected =
    (connected, Raise (KeyError (VStr "language"))).
Proof.
  apply (X11_scalar_reports_are_opened_after_comparing upper_case_db
           hash_order Procedure connected 69 70 bare_proc_rows bare_proc_rows
           {[ "SALES.TOTAL" := lower_keys [("PROCSCHEMA", VStr "SALES");
                                           ("PROCNAME", VStr "TOTAL")] ]}
           {[ "SALES.TOTAL" := lower_keys [("PROCSCHEMA", VStr "SALES");
                                           ("PROCNAME", VStr "TOTAL")] ]});
    vm_compute; reflexivity.
Defined.

(** ** Writing the definition of a table *)

(** What writing one column does, when it can be written. *)
Lemma write_column_returns (file : string) (col : record) (st : state)
    (name typename scale : value) (len : Z) :
  has_fields table_compare_keys col →
  col !! "colname" = Some name →
  col !! "typename" = Some typename →
  col !! "length" = Some (VInt len) →
  col !! "scale" = Some scale →
  (scale = VNone ∨ ∃ z, scale = VInt z) →
  ∃ evs,
    write_column file col st =
      (State (baseline_conn st) (modified_conn st) (trace st ++ evs), Ok ()) ∧
    head evs =
      Some (FileWrite file ("  " +:+ py_str name +:+ " " +:+ py_str typename)) ∧
    last evs = Some (FileWrite file nl) ∧
    Forall (about_files [file]) evs.
Proof.
  intros Hcol Hname Htype Hlen Hscale Hsc.
  unfold table_compare_keys in Hcol. rewrite !has_fields_cons in Hcol.
  destruct Hcol as (_ & _ & _ & _ & [nulls Hnulls] & [dflt Hdflt] &
                    [identity Hidentity] & [generated Hgenerated] & _).
  destruct st as [bc mc tr].
  unfold write_column, mbind, M_bind, lift, write, emit, when, getitem, mret,
    M_ret.
  rewrite Hname, Htype, Hlen, Hscale, Hnulls, Hdflt, Hidentity, Hgenerated.
  cbn -[String.append nl].
  destruct Hsc as [->|[z ->]];
    rewrite ?(bool_decide_eq_false_2 (VNone ≠ VNone)) by (by intros []);
    rewrite ?(bool_decide_eq_true_2 (VInt z ≠ VNone)) by done;
    cbn -[String.append nl];
    destruct (0 <? len)%Z; cbn -[String.append nl];
    try destruct (0 <? z)%Z; cbn -[String.append nl];
    destruct (py_truthy dflt); cbn -[String.append nl];
    destruct (py_eq_str identity "Y"); cbn -[String.append nl];
    try (destruct (py_eq_str generated "A"); cbn -[String.append nl]);
    try (destruct (py_eq_str generated "D"); cbn -[String.append nl]);
    rewrite <-?(assoc_L (++)); cbn -[String.append nl];
    (eexists; split; [reflexivity|]);
    (split_and!; [reflexivity|reflexivity|]);
    repeat constructor.
Qed.

(** X12.  [_write_table_definition] writes a column without raising when
    the column has its eight fields, its length is an integer and its scale
    is NULL or an integer: it leaves the connections alone, writes only to
    the report file, starts with the name and the type and ends with a line
    feed. *)
Theorem X12_write_column_succeeds (file : string) (col : record) (st : state)
    (name typename scale : value) (len : Z) :
  has_fields table_compare_keys col →
  col !! "colname" = Some name →
  col !! "typename" = Some typename →
  col !! "length" = Some (VInt len) →
  col !! "scale" = Some scale →
  (scale = VNone ∨ ∃ z, scale = VInt z) →
  ∃ evs,
    write_column file col st =
      (State (baseline_conn st) (modified_conn st) (trace st ++ evs), Ok ()) ∧
    head evs =
      Some (FileWrite file ("  " +:+ py_str name +:+ " " +:+ py_str typename)) ∧
    last evs = Some (FileWrite file nl) ∧
    Forall (about_files [file]) evs.
Proof. apply write_column_returns. Qed.

Lemma X12_write_column_succeeds_witness :
  ∃ evs,
    write_column "tables_diff.log" (sample_column "ID" "INTEGER" 4) connected =
      (State (baseline_conn connected) (modified_conn connected)
         (trace connected ++ evs), Ok ()) ∧
    head evs =
      Some (FileWrite "tables_diff.log"
              ("  " +:+ py_str (VStr "ID") +:+ " " +:+ py_str (VStr "INTEGER"))) ∧
    last evs = Some (FileWrite "tables_diff.log" nl) ∧
    Forall (about_files ["tables_diff.log"]) evs.
Proof.
  apply (X12_write_column_succeeds "tables_diff.log"
           (sample_column "ID" "INTEGER" 4) connected
           (VStr "ID") (VStr "INTEGER") (VInt 0) 4).
  - by_evaluation.
  - reflexivity.
  - reflexivity.
  - reflexivity.
  - reflexivity.
  - right. by exists 0%Z.
Defined.

(** ** The changes of a procedure, a trigger or a function *)

Lemma write_change_spec k file (b m : record) key bv mv st :
  b !! key = Some bv → m !! key = Some mv →
  ∃ evs,
    write_change k file b m key st =
      (State (baseline_conn st) (modified_conn st) (trace st ++ evs), Ok ()) ∧
    (evs = [] ↔ bv = mv).
Proof.
  intros Hb Hm. destruct st as [bc mc tr].
  unfold write_change, mbind, M_bind, lift, write, emit, when, getitem, mret,
    M_ret.
  rewrite Hb, Hm. cbn -[String.append nl].
  destruct (py_ne bv mv) eqn:Hne.
  - apply py_ne_true in Hne. case_bool_decide; cbn -[String.append nl];
      rewrite <-?(assoc_L (++)); (eexists; split; [reflexivity|]); done.
  - exists []. rewrite (right_id_L [] (++)). split; [done|]. split; [|done].
    intros _. destruct (decide (bv = mv)) as [|Hd]; [done|].
    apply py_ne_true in Hd. congruence.
Qed.

Lemma write_changes_spec k file (b m : record) keys st :
  has_fields keys b → has_fields keys m →
  ∃ evs,
    for_each (write_change k file b m) keys st =
      (State (baseline_conn st) (modified_conn st) (trace st ++ evs), Ok ()) ∧
    (evs = [] ↔ ∀ key, key ∈ keys → b !! key = m !! key).
Proof.
  revert st. induction keys as [|key keys IH]; intros st Hb Hm.
  - exists []. destruct st. cbn. rewrite (right_id_L [] (++)).
    split; [done|]. split; [|done]. by intros _ ? ?%elem_of_nil.
  - apply has_fields_cons in Hb as [[bv Hbv] Hb].
    apply has_fields_cons in Hm as [[mv Hmv] Hm].
    destruct (write_change_spec k file b m key bv mv st Hbv Hmv)
      as (evs1 & Hst1 & Hiff1).
    cbn [for_each]. rewrite (bind_ok _ _ _ _ _ Hst1).
    destruct (IH (State (baseline_conn st) (modified_conn st)
                    (trace st ++ evs1)) Hb Hm) as (evs2 & Hst2 & Hiff2).
    cbn in Hst2. rewrite Hst2. exists (evs1 ++ evs2).
    split; [by rewrite (assoc_L (++))|].
    rewrite app_nil, Hiff1, Hiff2. split.
    + intros [-> Hrest] key' [->|?]%elem_of_cons; [congruence|by apply Hrest].
    + intros Hall. split.
      * assert (b !! key = m !! key) as Heq by (apply Hall; left). congruence.
      * intros key' ?. apply Hall. by right.
Qed.

(** X13.  The list of changes written for a modified procedure, trigger or
    function agrees with the check that classified it: on records that have
    the compared fields the loop never raises, and it writes nothing exactly
    when the check answers that the two definitions do not differ. *)
Theorem X13_changes_section_agrees_with_the_check (k : scalar_kind)
    (file : string) (b m : record) (st : state) :
  has_fields (compare_keys k) b → has_fields (compare_keys k) m →
  ∃ evs,
    for_each (write_change k file b m) (compare_keys k) st =
      (State (baseline_conn st) (modified_conn st) (trace st ++ evs), Ok ()) ∧
    (evs = [] ↔ definitions_differ k b m = Ok false).
Proof.
  intros Hb Hm.
  destruct (write_changes_spec k file b m (compare_keys k) st Hb Hm)
    as (evs & Hst & Hiff).
  exists evs. split; [done|]. rewrite Hiff.
  destruct (definitions_differ_ok k b m Hb Hm) as (d & -> & Hd). split.
  - intros Hall. f_equal. destruct d; [|done].
    destruct (proj1 Hd eq_refl) as (f & Hf & Hne). by destruct Hne; apply Hall.
  - intros [= ->] key Hkey.
    destruct (decide (b !! key = m !! key)) as [|Hne]; [done|].
    assert (false = true) by (apply Hd; eauto). done.
Qed.

Lemma X13_changes_section_agrees_with_the_check_witness :
  ∃ evs,
    for_each (write_change Procedure "procedures_modified.log"
                (sample_proc "SQL") (sample_proc "C"))
      (compare_keys Procedure) connected =
      (State (baseline_conn connected) (modified_conn connected)
         (trace connected ++ evs), Ok ()) ∧
    (evs = [] ↔
     definitions_differ Procedure (sample_proc "SQL") (sample_proc "C")
       = Ok false).
Proof.
  apply (X13_changes_section_agrees_with_the_check Procedure
           "procedures_modified.log" (sample_proc "SQL") (sample_proc "C")
           connected); by_evaluation.
Defined.

(** ** The counts of the summary *)

(** A set splits into what it shares with another set and the rest. *)
Lemma size_split (X Y : gset string) : size X = size (X ∖ Y) + size (X ∩ Y).
Proof.
  rewrite <-size_union.
  - f_equal. apply set_eq. intros x.
    rewrite elem_of_union, elem_of_difference, elem_of_intersection.
    destruct (decide (x ∈ Y)); tauto.
  - intros x. rewrite elem_of_difference, elem_of_intersection. tauto.
Qed.

(** X14.  The counts of new and dropped objects that the summary prints
    account for the change in the number of objects: the new keys and the
    baseline keys together are as many as the dropped keys and the modified
    keys together. *)
Theorem X14_new_and_dropped_counts_balance {V : Type}
    (baseline_dict modified_dict : gmap string V) :
  size (new_keys baseline_dict modified_dict) + size baseline_dict =
  size (dropped_keys baseline_dict modified_dict) + size modified_dict.
Proof.
  unfold new_keys, dropped_keys. rewrite <-!size_dom.
  rewrite (size_split (dom modified_dict) (dom baseline_dict)).
  rewrite (size_split (dom baseline_dict) (dom modified_dict)).
  assert (dom modified_dict ∩ dom baseline_dict =
          dom baseline_dict ∩ dom modified_dict :> gset string) as ->.
  { apply set_eq. intros x. rewrite !elem_of_intersection. tauto. }
  lia.
Qed.

(** ** Methods that return *)

Lemma returns_ret {A : Type} (Q : A → Prop) (a : A) : Q a → returns Q (mret a).
Proof. intros Ha st. by exists st, a. Qed.

Lemma returns_lift {A : Type} (Q : A → Prop) (r : result A) (a : A) :
  r = Ok a → Q a → returns Q (lift r).
Proof. intros -> Ha st. by exists st, a. Qed.

Lemma returns_bind {A B : Type} (Q : A → Prop) (R : B → Prop)
    (m : M A) (f : A → M B) :
  returns Q m → (∀ a, Q a → returns R (f a)) → returns R (m ≫= f).
Proof.
  intros Hm Hf st. destruct (Hm st) as (st' & a & Hst & Ha).
  rewrite (bind_ok _ _ _ _ _ Hst). by apply Hf.
Qed.

Lemma completes_write file text : completes (write file text).
Proof. intros st. by eexists _, (). Qed.

Lemma completes_open file : completes (open file).
Proof. intros st. by eexists _, (). Qed.

Lemma completes_seq {A : Type} (Q : A → Prop) (m : M A) (m' : M unit) :
  returns Q m → completes m' → completes (m ;; m').
Proof. intros Hm Hm'. eapply returns_bind; [exact Hm|]. by intros _ _. Qed.

Lemma completes_when (cond : bool) (body : M unit) :
  completes body → completes (when cond body).
Proof. intros Hbody. destruct cond; [done|]. by apply returns_ret. Qed.

Lemma completes_for_each {A : Type} (body : A → M unit) (xs : list A) :
  (∀ x, x ∈ xs → completes (body x)) → completes (for_each body xs).
Proof.
  induction xs as [|x xs IH]; intros Hbody; cbn [for_each].
  - by apply returns_ret.
  - eapply completes_seq; [apply Hbody; left|].
    apply IH. intros x' ?. apply Hbody. by right.
Qed.

(** *** Writing a procedure, a trigger or a function *)

Lemma has_fields_app fields1 fields2 (r : record) :
  has_fields (fields1 ++ fields2) r ↔
  has_fields fields1 r ∧ has_fields fields2 r.
Proof. unfold has_fields. apply Forall_app. Qed.

Lemma has_fields_elem fields (r : record) f :
  has_fields fields r → f ∈ fields → ∃ v, getitem r f = Ok v.
Proof.
  unfold has_fields. rewrite Forall_forall. intros Hr Hf.
  destruct (Hr f Hf) as [v Hv]. exists v. by apply getitem_Some.
Qed.

Lemma returns_getitem (r : record) field v :
  r !! field = Some v → returns (eq v) (lift (getitem r field)).
Proof. intros Hv. apply (returns_lift _ _ v); [by apply getitem_Some|done]. Qed.

Lemma completes_write_field file label (r : record) field :
  is_Some (r !! field) → completes (write_field file label r field).
Proof.
  intros [v Hv]. unfold write_field.
  eapply returns_bind; [by apply returns_getitem|].
  intros ? _. apply completes_write.
Qed.

Lemma completes_write_remarks_and_text file (r : record) text_key :
  is_Some (r !! "remarks") → is_Some (r !! text_key) →
  completes (write_remarks_and_text file r text_key).
Proof.
  intros [rv Hr] [tv Ht]. unfold write_remarks_and_text.
  eapply returns_bind; [by apply returns_getitem|].
  intros ? _. eapply completes_seq; [apply completes_when, completes_write|].
  eapply completes_seq; [apply completes_write|].
  eapply returns_bind; [by apply returns_getitem|].
  intros ? _. apply completes_when, completes_write.
Qed.

Lemma has_fields_is_Some fields (r : record) f :
  has_fields fields r → f ∈ fields → is_Some (r !! f).
Proof. unfold has_fields. rewrite Forall_forall. auto. Qed.

(** A field named in a concrete list of fields that the record has. *)
Ltac field_present H :=
  eapply has_fields_is_Some; [exact H|by_evaluation].

Lemma completes_write_definition k file (r : record) :
  has_fields (compare_keys k ++ ["remarks"]) r →
  completes (write_definition k file r).
Proof.
  intros Hr. destruct k; cbn [write_definition].
  - unfold _write_proc_definition.
    repeat (eapply completes_seq; [apply completes_write_field; field_present Hr|]).
    apply completes_write_remarks_and_text; field_present Hr.
  - unfold _write_trigger_definition.
    destruct (has_fields_is_Some _ r "tabschema" Hr) as [s Hs]; [by_evaluation|].
    destruct (has_fields_is_Some _ r "tabname" Hr) as [n Hn]; [by_evaluation|].
    eapply returns_bind; [by apply returns_getitem|]. intros ? _.
    eapply returns_bind; [by apply returns_getitem|]. intros ? _.
    eapply completes_seq; [apply completes_write|].
    repeat (eapply completes_seq; [apply completes_write_field; field_present Hr|]).
    apply completes_write_remarks_and_text; field_present Hr.
  - unfold _write_function_definition.
    repeat (eapply completes_seq; [apply completes_write_field; field_present Hr|]).
    apply completes_write_remarks_and_text; field_present Hr.
Qed.

Lemma completes_write_differences k file (b m : record) :
  has_fields (compare_keys k ++ ["remarks"]) b →
  has_fields (compare_keys k ++ ["remarks"]) m →
  completes (write_differences k file b m).
Proof.
  intros Hb Hm. unfold write_differences.
  eapply completes_seq; [apply completes_write|].
  eapply completes_seq; [by apply completes_write_definition|].
  eapply completes_seq; [apply completes_write|].
  eapply completes_seq; [by apply completes_write_definition|].
  eapply completes_seq; [apply completes_write|].
  apply has_fields_app in Hb as [Hb _]. apply has_fields_app in Hm as [Hm _].
  intros st.
  destruct (write_changes_spec k file b m (compare_keys k) st Hb Hm)
    as (evs & -> & _).
  by eexists _, ().
Qed.

Lemma completes_write_summary_list file heading nonempty keys :
  completes (write_summary_list file heading nonempty keys).
Proof.
  unfold write_summary_list. apply completes_when.
  eapply completes_seq; [apply completes_write|].
  apply completes_for_each. intros key _. apply completes_write.
Qed.

Lemma completes_write_detail_file file heading nonempty keys
    (body : string → M unit) :
  (∀ key, key ∈ keys → completes (body key)) →
  completes (write_detail_file file heading nonempty keys body).
Proof.
  intros Hbody. unfold write_detail_file. apply completes_when.
  eapply completes_seq; [apply completes_open|].
  eapply completes_seq; [apply completes_write|].
  apply completes_for_each. intros key Hkey.
  eapply completes_seq; [apply completes_write|]. by apply Hbody.
Qed.

Lemma elem_of_sorted (xs : list string) x : x ∈ sorted xs ↔ x ∈ xs.
Proof. by rewrite (proj2 (sorted_spec xs)). Qed.

Lemma returns_dict_get {V : Type} (Q : V → Prop) (d : gmap string V) key :
  (∃ v, d !! key = Some v ∧ Q v) → returns Q (lift (dict_get d key)).
Proof.
  intros (v & Hv & HQ). apply (returns_lift _ _ v); [|done].
  by apply dict_get_Some.
Qed.

(** The records of a grouping are records of the input. *)
Lemma group_by_values k (rs : list record) (P : record → Prop) :
  Forall (has_fields (key_fields k)) rs → Forall P rs →
  ∃ g, group_by k rs = Ok g ∧ map_Forall (λ _, P) g.
Proof.
  intros Hkeys HP. destruct (group_by_fold k rs Hkeys) as (g & Hg & Hlook).
  exists g. split; [done|]. intros key r Hr. rewrite Hlook in Hr.
  apply last_Some_elem_of, list_elem_of_filter in Hr as [_ Hr].
  rewrite Forall_forall in HP. by apply HP.
Qed.

Lemma completes_run (m : M unit) st :
  completes m → ∃ st', m st = (st', Ok ()).
Proof. intros Hm. destruct (Hm st) as (st' & [] & Hst & _). eauto. Qed.

(** The comparison of procedures, triggers or functions on complete rows. *)
Lemma compare_scalar_completes (db : ibm_db) (o : set_order) (k : scalar_kind)
    (st : state) (hb hm : nat) (rows_b rows_m : list row) :
  keys_order_ok o →
  baseline_conn st = Some hb →
  modified_conn st = Some hm →
  ibm_exec_immediate db hb (query_of k) = Ok rows_b →
  ibm_exec_immediate db hm (query_of k) = Ok rows_m →
  Forall (has_fields (scalar_fields k)) (fetch_loop rows_b) →
  Forall (has_fields (scalar_fields k)) (fetch_loop rows_m) →
  ∃ st', compare_scalar db o k st = (st', Ok ()).
Proof.
  intros Ho Hb Hm Hrb Hrm Hwb Hwm.
  assert (∀ rs, Forall (has_fields (scalar_fields k)) rs →
            ∃ g, group_by k rs = Ok g ∧
                 map_Forall (λ _, has_fields (compare_keys k ++ ["remarks"])) g)
    as Hgroup.
  { intros rs Hrs. apply group_by_values.
    - eapply Forall_impl; [exact Hrs|]. intros r Hr.
      by apply has_fields_app in Hr as [? _].
    - eapply Forall_impl; [exact Hrs|]. intros r Hr.
      by apply has_fields_app in Hr as [_ ?]. }
  destruct (Hgroup _ Hwb) as (bd & Hgb & Hbd).
  destruct (Hgroup _ Hwm) as (md & Hgm & Hmd).
  destruct (find_modified_ok (definitions_differ k) o bd md Ho)
    as (changed & Hfind & Hchanged).
  { intros key b m Hbk Hmk.
    pose proof (Hbd _ _ Hbk) as [Hbf _]%has_fields_app.
    pose proof (Hmd _ _ Hmk) as [Hmf _]%has_fields_app.
    destruct (definitions_differ_ok k b m Hbf Hmf) as (d & ? & _); eauto. }
  unfold compare_scalar.
  rewrite (bind_ok _ _ st st st eq_refl). rewrite Hb, Hm.
  rewrite (bind_ok _ _ st st _ (lift_ok _ _ _ (fetch_all_ok _ _ _ _ Hrb))).
  rewrite (bind_ok _ _ st st _ (lift_ok _ _ _ (fetch_all_ok _ _ _ _ Hrm))).
  rewrite (bind_ok _ _ st st _ (lift_ok _ _ _ Hgb)).
  rewrite (bind_ok _ _ st st _ (lift_ok _ _ _ Hgm)).
  cbn zeta.
  rewrite (bind_ok _ _ st st _ (lift_ok _ _ _ Hfind)).
  apply completes_run.
  eapply completes_seq; [apply completes_open|].
  do 4 (eapply completes_seq; [apply completes_write|]).
  do 3 (eapply completes_seq; [apply completes_write_summary_list|]).
  eapply completes_seq; [|eapply completes_seq].
  - apply completes_write_detail_file. intros key Hkey.
    apply elem_of_sorted, (elem_of_iter_keys _ _ _ Ho) in Hkey.
    unfold new_keys in Hkey.
    apply elem_of_difference in Hkey as [[r Hr]%elem_of_dom _].
    eapply returns_bind; [apply (returns_dict_get (eq r)); by exists r|].
    intros ? <-. apply completes_write_definition. by eapply Hmd.
  - apply completes_write_detail_file. intros key Hkey.
    apply elem_of_sorted, (elem_of_iter_keys _ _ _ Ho) in Hkey.
    unfold dropped_keys in Hkey.
    apply elem_of_difference in Hkey as [[r Hr]%elem_of_dom _].
    eapply returns_bind; [apply (returns_dict_get (eq r)); by exists r|].
    intros ? <-. apply completes_write_definition. by eapply Hbd.
  - apply completes_write_detail_file. intros key Hkey.
    apply elem_of_sorted, Hchanged in Hkey as (b & m & Hbk & Hmk & _).
    eapply returns_bind;
      [apply (returns_dict_get (eq b)); by exists b|]. intros ? <-.
    eapply returns_bind;
      [apply (returns_dict_get (eq m)); by exists m|]. intros ? <-.
    apply completes_write_differences; [by eapply Hbd|by eapply Hmd].
Qed.

(** What the comparison of one scalar kind does on complete rows. *)
Lemma compare_scalar_returns (db : ibm_db) (o : set_order)
    (k : scalar_kind) (st : state) (hb hm : nat) (rows_b rows_m : list row) :
  keys_order_ok o →
  baseline_conn st = Some hb →
  modified_conn st = Some hm →
  ibm_exec_immediate db hb (query_of k) = Ok rows_b →
  ibm_exec_immediate db hm (query_of k) = Ok rows_m →
  Forall (has_fields (scalar_fields k)) (fetch_loop rows_b) →
  Forall (has_fields (scalar_fields k)) (fetch_loop rows_m) →
  ∃ evs,
    compare_scalar db o k st =
      (State (Some hb) (Some hm) (trace st ++ evs), Ok ()) ∧
    Forall (about_files (report_files k)) evs.
Proof.
  intros Ho Hb Hm Hrb Hrm Hwb Hwm.
  destruct (compare_scalar_completes db o k st hb hm rows_b rows_m)
    as [st' Hst]; [done..|].
  destruct (compare_scalar_only_reports db o k st) as (evs & Hst' & Hevs).
  rewrite Hst in Hst'. cbn in Hst'. rewrite Hb, Hm in Hst'. subst st'.
  by exists evs.
Qed.

(** X15.  On rows that have the fields of the key, the compared fields and
    the remarks, the comparison of procedures, of triggers or of functions
    returns without raising, having kept the connections and only opened and
    written the report files of its kind. *)
Theorem X15_scalar_comparison_completes (db : ibm_db) (o : set_order)
    (k : scalar_kind) (st : state) (hb hm : nat) (rows_b rows_m : list row) :
  keys_order_ok o →
  baseline_conn st = Some hb →
  modified_conn st = Some hm →
  ibm_exec_immediate db hb (query_of k) = Ok rows_b →
  ibm_exec_immediate db hm (query_of k) = Ok rows_m →
  Forall (has_fields (scalar_fields k)) (fetch_loop rows_b) →
  Forall (has_fields (scalar_fields k)) (fetch_loop rows_m) →
  ∃ evs,
    compare_scalar db o k st =
      (State (Some hb) (Some hm) (trace st ++ evs), Ok ()) ∧
    Forall (about_files (report_files k)) evs.
Proof. apply compare_scalar_returns. Qed.

(** *** Writing a table *)

Lemma column_ok_spec (col : record) :
  column_ok col →
  has_fields table_key_fields col ∧ has_fields table_compare_keys col ∧
  (∃ len, col !! "length" = Some (VInt len)) ∧
  ∃ scale, col !! "scale" = Some scale ∧ (scale = VNone ∨ ∃ z, scale = VInt z).
Proof.
  unfold column_ok. intros [[Hf Hl]%andb_True Hs]%andb_True.
  apply bool_decide_unpack, has_fields_app in Hf as [Hk Hc].
  split_and!; [done..| |].
  - destruct (col !! "length") as [[| |len]|]; try done. by exists len.
  - destruct (col !! "scale") as [[| |z]|]; try done.
    + exists VNone. by split; [|left].
    + exists (VInt z). split; [done|]. right. by exists z.
Qed.

Lemma completes_write_column file (col : record) :
  column_ok col → completes (write_column file col).
Proof.
  intros (_ & Hc & [len Hlen] & scale & Hscale & Hsc)%column_ok_spec st.
  destruct (has_fields_is_Some _ col "colname" Hc) as [name Hname];
    [by_evaluation|].
  destruct (has_fields_is_Some _ col "typename" Hc) as [ty Hty];
    [by_evaluation|].
  destruct (write_column_returns file col st name ty scale len)
    as (evs & -> & _); [done..|].
  by eexists _, ().
Qed.

Lemma completes_write_table_definition file (cols : list record) :
  Forall (λ col, column_ok col) cols →
  completes (_write_table_definition file cols).
Proof.
  intros Hcols. unfold _write_table_definition. apply completes_for_each.
  intros col Hcol. apply completes_write_column.
  rewrite Forall_forall in Hcols. by apply Hcols.
Qed.

(** The columns filed in the dictionary of a table are columns of it. *)
Lemma cols_dict_values (cols : list record) (P : record → Prop) :
  Forall (has_fields table_compare_keys) cols → Forall P cols →
  ∃ d, cols_dict cols = Ok d ∧ map_Forall (λ _, P) d.
Proof.
  intros Hcols HP.
  destruct (dict_fold (λ col, getitem col "colname") cols ∅)
    as (d & Hd & Hlook).
  { eapply Forall_impl; [exact Hcols|]. intros col Hcol.
    apply has_fields_cons in Hcol as [[name Hn] _].
    exists name. by apply getitem_Some. }
  exists d. split; [done|]. intros name col Hcol.
  rewrite Hlook, lookup_empty in Hcol.
  destruct (last _) as [col'|] eqn:Hlast; [|done]. injection Hcol as ->.
  apply last_Some_elem_of, list_elem_of_filter in Hlast as [_ Hin].
  rewrite Forall_forall in HP. by apply HP.
Qed.

Lemma modified_columns_ok (db dm : gmap value record) (names : list value) :
  (∀ name, name ∈ names →
     ∃ b m, db !! name = Some b ∧ dm !! name = Some m ∧
            has_fields detail_keys b ∧ has_fields detail_keys m) →
  ∃ l, modified_columns db dm names = Ok l.
Proof.
  induction names as [|name names IH]; intros Hnames; [by exists []|].
  destruct (Hnames name) as (b & m & Hb & Hm & Hbf & Hmf); [left|].
  destruct IH as [rest Hrest]; [intros n ?; apply Hnames; by right|].
  destruct (column_differences_ok detail_keys b m Hbf Hmf) as (ds & Hds & _).
  cbn [modified_columns]. unfold cols_get. rewrite Hb, Hm.
  cbn [mbind result_bind]. rewrite Hds.
  cbn [mbind result_bind]. rewrite Hrest. cbn. eauto.
Qed.

Lemma completes_write_column_changes file o (b m : list record) :
  cols_order_ok o →
  Forall (has_fields table_compare_keys) b →
  Forall (has_fields table_compare_keys) m →
  completes (write_column_changes file o b m).
Proof.
  intros Ho Hb Hm.
  destruct (cols_dict_values b (has_fields table_compare_keys) Hb Hb)
    as (db & Hdb & Hdbv).
  destruct (cols_dict_values m (has_fields table_compare_keys) Hm Hm)
    as (dm & Hdm & Hdmv).
  destruct (modified_columns_ok db dm (iter_cols o (dom db ∩ dom dm)))
    as [l Hl].
  { intros name Hin. apply (elem_of_iter_cols _ _ _ Ho) in Hin.
    apply elem_of_intersection in Hin
      as [[bc Hbc]%elem_of_dom [mc Hmc]%elem_of_dom].
    exists bc, mc. split_and!; [done..| |].
    - pose proof (Hdbv _ _ Hbc) as Hf. by apply has_fields_cons in Hf as [_ ?].
    - pose proof (Hdmv _ _ Hmc) as Hf. by apply has_fields_cons in Hf as [_ ?]. }
  unfold write_column_changes.
  eapply returns_bind; [by apply (returns_lift (eq db) _ db Hdb)|]. intros ? <-.
  eapply returns_bind; [by apply (returns_lift (eq dm) _ dm Hdm)|]. intros ? <-.
  cbn zeta.
  eapply completes_seq.
  { apply completes_when. eapply completes_seq; [apply completes_write|].
    apply completes_for_each. intros ? _. apply completes_write. }
  eapply completes_seq.
  { apply completes_when. eapply completes_seq; [apply completes_write|].
    apply completes_for_each. intros ? _. apply completes_write. }
  eapply returns_bind; [by apply (returns_lift (eq l) _ l Hl)|]. intros ? <-.
  apply completes_when. eapply completes_seq; [apply completes_write|].
  apply completes_for_each. intros [col changes] _.
  eapply completes_seq; [apply completes_write|].
  apply completes_for_each. intros ? _. apply completes_write.
Qed.

Lemma column_ok_compared (cols : list record) :
  Forall (λ col, column_ok col) cols →
  Forall (has_fields table_compare_keys) cols.
Proof.
  intros H. eapply Forall_impl; [exact H|].
  by intros col (_ & ? & _)%column_ok_spec.
Qed.

Lemma completes_write_table_differences_detail file o (b m : list record) :
  cols_order_ok o →
  Forall (λ col, column_ok col) b → Forall (λ col, column_ok col) m →
  completes (_write_table_differences_detail file o b m).
Proof.
  intros Ho Hb Hm. unfold _write_table_differences_detail, write_detail_header.
  eapply completes_seq.
  - eapply completes_seq; [apply completes_write|].
    eapply completes_seq; [by apply completes_write_table_definition|].
    eapply completes_seq; [apply completes_write|].
    eapply completes_seq; [by apply completes_write_table_definition|].
    apply completes_write.
  - apply completes_write_column_changes; [done|by apply column_ok_compared..].
Qed.

(** The column lists of a grouping hold rows of the input. *)
Lemma group_by_table_values (tables : list record) (P : record → Prop) :
  Forall (has_fields table_key_fields) tables → Forall P tables →
  ∃ g, _group_by_table tables = Ok g ∧ map_Forall (λ _, Forall P) g.
Proof.
  intros Hkeys HP.
  destruct (group_by_table_fold tables ∅ Hkeys) as (g & Hg & Hlook).
  exists g. split; [done|]. intros key cols Hcols.
  rewrite Hlook, lookup_empty in Hcols.
  destruct (rows_of_table key tables) as [|col cols'] eqn:Hrows; [done|].
  injection Hcols as <-. rewrite <-Hrows. apply Forall_forall. intros c Hc.
  apply list_elem_of_filter in Hc as [_ Hc].
  rewrite Forall_forall in HP. by apply HP.
Qed.

Lemma completes_write_tables_section file heading nonempty tables
    (body : string → M unit) :
  (∀ table, table ∈ tables → completes (body table)) →
  completes (write_tables_section file heading nonempty tables body).
Proof.
  intros Hbody. unfold write_tables_section. apply completes_when.
  eapply completes_seq; [apply completes_write|].
  apply completes_for_each. intros table Htable.
  eapply completes_seq; [apply completes_write|]. by apply Hbody.
Qed.

(** The comparison of tables on complete rows. *)
Lemma compare_tables_completes (db : ibm_db) (o : set_order) (st : state)
    (hb hm : nat) (rows_b rows_m : list row) :
  keys_order_ok o → cols_order_ok o →
  baseline_conn st = Some hb →
  modified_conn st = Some hm →
  ibm_exec_immediate db hb TableQuery = Ok rows_b →
  ibm_exec_immediate db hm TableQuery = Ok rows_m →
  Forall (λ col, column_ok col) (fetch_loop rows_b) →
  Forall (λ col, column_ok col) (fetch_loop rows_m) →
  ∃ st', compare_tables db o st = (st', Ok ()).
Proof.
  intros Ho Hoc Hb Hm Hrb Hrm Hwb Hwm.
  assert (∀ rs, Forall (λ col, column_ok col) rs →
            ∃ g, _group_by_table rs = Ok g ∧
                 map_Forall (λ _, Forall (λ col, column_ok col)) g) as Hgroup.
  { intros rs Hrs. apply group_by_table_values; [|done].
    eapply Forall_impl; [exact Hrs|].
    by intros col (? & _)%column_ok_spec. }
  destruct (Hgroup _ Hwb) as (bd & Hgb & Hbd).
  destruct (Hgroup _ Hwm) as (md & Hgm & Hmd).
  destruct (find_modified_ok _table_definitions_differ o bd md Ho)
    as (changed & Hfind & Hchanged).
  { intros key b m Hbk Hmk. apply table_definitions_differ_total.
    - apply column_ok_compared. by eapply Hbd.
    - apply column_ok_compared. by eapply Hmd. }
  unfold compare_tables.
  rewrite (bind_ok _ _ st st st eq_refl). rewrite Hb, Hm.
  rewrite (bind_ok _ _ st st _ (lift_ok _ _ _ (fetch_all_ok _ _ _ _ Hrb))).
  rewrite (bind_ok _ _ st st _ (lift_ok _ _ _ (fetch_all_ok _ _ _ _ Hrm))).
  rewrite (bind_ok _ _ st st _ (lift_ok _ _ _ Hgb)).
  rewrite (bind_ok _ _ st st _ (lift_ok _ _ _ Hgm)).
  cbn zeta. apply completes_run.
  eapply completes_seq; [apply completes_open|].
  eapply returns_bind;
    [by apply (returns_lift (eq changed) _ changed Hfind)|]. intros ? <-.
  do 4 (eapply completes_seq; [apply completes_write|]).
  eapply completes_seq; [|eapply completes_seq].
  - apply completes_write_tables_section. intros key Hkey.
    apply elem_of_sorted, (elem_of_iter_keys _ _ _ Ho) in Hkey.
    unfold new_keys in Hkey.
    apply elem_of_difference in Hkey as [[cols Hcols]%elem_of_dom _].
    eapply returns_bind; [apply (returns_dict_get (eq cols)); by exists cols|].
    intros ? <-. apply completes_write_table_definition. by eapply Hmd.
  - apply completes_write_tables_section. intros key Hkey.
    apply elem_of_sorted, (elem_of_iter_keys _ _ _ Ho) in Hkey.
    unfold dropped_keys in Hkey.
    apply elem_of_difference in Hkey as [[cols Hcols]%elem_of_dom _].
    eapply returns_bind; [apply (returns_dict_get (eq cols)); by exists cols|].
    intros ? <-. apply completes_write_table_definition. by eapply Hbd.
  - apply completes_write_tables_section. intros key Hkey.
    apply elem_of_sorted, Hchanged in Hkey as (b & m & Hbk & Hmk & _).
    eapply returns_bind;
      [apply (returns_dict_get (eq b)); by exists b|]. intros ? <-.
    eapply returns_bind;
      [apply (returns_dict_get (eq m)); by exists m|]. intros ? <-.
    apply completes_write_table_differences_detail;
      [done|by eapply Hbd|by eapply Hmd].
Qed.

(** What the comparison of tables does on complete rows. *)
Lemma compare_tables_returns (db : ibm_db) (o : set_order)
    (st : state) (hb hm : nat) (rows_b rows_m : list row) :
  keys_order_ok o → cols_order_ok o →
  baseline_conn st = Some hb →
  modified_conn st = Some hm →
  ibm_exec_immediate db hb TableQuery = Ok rows_b →
  ibm_exec_immediate db hm TableQuery = Ok rows_m →
  Forall (λ col, column_ok col) (fetch_loop rows_b) →
  Forall (λ col, column_ok col) (fetch_loop rows_m) →
  ∃ evs,
    compare_tables db o st =
      (State (Some hb) (Some hm) (trace st ++ evs), Ok ()) ∧
    Forall (about_files ["tables_diff.log"]) evs.
Proof.
  intros Ho Hoc Hb Hm Hrb Hrm Hwb Hwm.
  destruct (compare_tables_completes db o st hb hm rows_b rows_m)
    as [st' Hst]; [done..|].
  destruct (compare_tables_only_reports db o st) as (evs & Hst' & Hevs).
  rewrite Hst in Hst'. cbn in Hst'. rewrite Hb, Hm in Hst'. subst st'.
  by exists evs.
Qed.

(** X16.  On rows that have the fields of the key and the compared fields,
    an integer length and a NULL or integer scale, [compare_tables] returns
    without raising, having kept the connections and only opened and written
    [tables_diff.log]. *)
Theorem X16_table_comparison_completes (db : ibm_db) (o : set_order)
    (st : state) (hb hm : nat) (rows_b rows_m : list row) :
  keys_order_ok o → cols_order_ok o →
  baseline_conn st = Some hb →
  modified_conn st = Some hm →
  ibm_exec_immediate db hb TableQuery = Ok rows_b →
  ibm_exec_immediate db hm TableQuery = Ok rows_m →
  Forall (λ col, column_ok col) (fetch_loop rows_b) →
  Forall (λ col, column_ok col) (fetch_loop rows_m) →
  ∃ evs,
    compare_tables db o st =
      (State (Some hb) (Some hm) (trace st ++ evs), Ok ()) ∧
    Forall (about_files ["tables_diff.log"]) evs.
Proof. apply compare_tables_returns. Qed.

Lemma X15_scalar_comparison_completes_witness :
  ∃ evs,
    compare_scalar sample_db hash_order Procedure connected =
      (State (Some 69) (Some 70) (trace connected ++ evs), Ok ()) ∧
    Forall (about_files (report_files Procedure)) evs.
Proof.
  apply (X15_scalar_comparison_completes sample_db hash_order Procedure
           connected 69 70 (sample_rows false ProcQuery)
           (sample_rows true ProcQuery)).
  - intros X. reflexivity.
  - reflexivity.
  - reflexivity.
  - reflexivity.
  - reflexivity.
  - by_evaluation.
  - by_evaluation.
Defined.

Lemma X16_table_comparison_completes_witness :
  ∃ evs,
    compare_tables sample_db hash_order connected =
      (State (Some 69) (Some 70) (trace connected ++ evs), Ok ()) ∧
    Forall (about_files ["tables_diff.log"]) evs.
Proof.
  apply (X16_table_comparison_completes sample_db hash_order connected 69 70
           (sample_rows false TableQuery) (sample_rows true TableQuery)).
  - intros X. reflexivity.
  - intros X. reflexivity.
  - reflexivity.
  - reflexivity.
  - reflexivity.
  - reflexivity.
  - by_evaluation.
  - by_evaluation.
Defined.

(** ** A run on complete catalogs *)

(** X17.  When both connections open and both catalogs answer the four
    queries with complete rows, [main] returns without raising: it opens and
    writes report files only, and ends by closing the baseline connection and
    then the modified connection. *)
Theorem X17_main_completes_on_complete_catalogs (db : ibm_db) (o : set_order)
    (baseline_config modified_config : DbConfig) (hb hm : nat) :
  keys_order_ok o → cols_order_ok o →
  ibm_connect db (get_connection_string baseline_config) = Ok hb →
  ibm_connect db (get_connection_string modified_config) = Ok hm →
  catalog_ok db hb → catalog_ok db hm →
  ∃ evs,
    main db o baseline_config modified_config =
      (State (Some hb) (Some hm) (evs ++ [DbClose hb; DbClose hm]), Ok ()) ∧
    Forall (about_files all_report_files) evs.
Proof.
  intros Ho Hoc Hcb Hcm [(tb & Htb & Htbok) Hsb] [(tm & Htm & Htmok) Hsm].
  pose proof (connect_spec db baseline_config modified_config) as Hconnect.
  rewrite Hcb, Hcm in Hconnect.
  assert (∀ k st, baseline_conn st = Some hb → modified_conn st = Some hm →
            ∃ evs, compare_scalar db o k st =
                     (State (Some hb) (Some hm) (trace st ++ evs), Ok ()))
    as Hscalar.
  { intros k st Hb Hm.
    destruct (Hsb k) as (rb & Hrb & Hrbok), (Hsm k) as (rm & Hrm & Hrmok).
    destruct (compare_scalar_returns db o k st hb hm rb rm)
      as (evs & ? & _); eauto. }
  destruct (compare_tables_returns db o (State (Some hb) (Some hm) [])
              hb hm tb tm) as (evs1 & H1 & _); [done..|].
  destruct (Hscalar Procedure (State (Some hb) (Some hm) ([] ++ evs1)))
    as (evs2 & H2); [done..|].
  destruct (Hscalar Trigger
              (State (Some hb) (Some hm) (([] ++ evs1) ++ evs2)))
    as (evs3 & H3); [done..|].
  destruct (Hscalar Function
              (State (Some hb) (Some hm) ((([] ++ evs1) ++ evs2) ++ evs3)))
    as (evs4 & H4); [done..|].
  cbn [trace] in H1, H2, H3, H4.
  assert (main_body db o baseline_config modified_config
            (State None None []) =
          (State (Some hb) (Some hm) (((([] ++ evs1) ++ evs2) ++ evs3) ++ evs4),
           Ok ())) as Hbody.
  { unfold main_body.
    rewrite (bind_ok _ _ _ _ _ Hconnect), (bind_ok _ _ _ _ _ H1),
      (bind_ok _ _ _ _ _ H2), (bind_ok _ _ _ _ _ H3).
    exact H4. }
  destruct (comparisons_only_report db o (State (Some hb) (Some hm) []))
    as (evs & Hevs & Hfiles).
  unfold main_body in Hbody. rewrite (bind_ok _ _ _ _ _ Hconnect) in Hbody.
  rewrite Hbody in Hevs. cbn in Hevs. injection Hevs as Hevs.
  unfold main. rewrite try_finally_close. unfold main_body.
  rewrite (bind_ok _ _ _ _ _ Hconnect), Hbody. cbn.
  exists evs. split; [by rewrite Hevs|done].
Qed.

Lemma X17_main_completes_on_complete_catalogs_witness :
  ∃ evs,
    main sample_db hash_order baseline_cfg modified_cfg =
      (State (Some 69) (Some 70) (evs ++ [DbClose 69; DbClose 70]), Ok ()) ∧
    Forall (about_files all_report_files) evs.
Proof.
  apply (X17_main_completes_on_complete_catalogs sample_db hash_order
           baseline_cfg modified_cfg 69 70).
  - intros X. reflexivity.
  - intros X. reflexivity.
  - vm_compute. reflexivity.
  - vm_compute. reflexivity.
  - split.
    + exists (sample_rows false TableQuery). split; [reflexivity|by_evaluation].
    + intros k. exists (sample_rows false (query_of k)).
      split; [reflexivity|]. destruct k; by_evaluation.
  - split.
    + exists (sample_rows true TableQuery). split; [reflexivity|by_evaluation].
    + intros k. exists (sample_rows true (query_of k)).
      split; [reflexivity|]. destruct k; by_evaluation.
Defined.

(** ** Grouping rows that lack a key field *)

Lemma scalar_key_raises k (r : record) :
  ¬ has_fields (key_fields k) r →
  ∃ f, f ∈ key_fields k ∧ r !! f = None ∧
       scalar_key k r = Raise (KeyError (VStr f)).
Proof.
  intros Hr. unfold scalar_key, getitem, key_fields in *.
  destruct (r !! schema_field k) as [s|] eqn:Hs; cbn.
  - destruct (r !! name_field k) as [n|] eqn:Hn; cbn.
    + destruct Hr. rewrite !has_fields_cons, Hs, Hn. split_and!; eauto.
      constructor.
    + exists (name_field k). split_and!; [right; left|done..].
  - exists (schema_field k). split_and!; [left|done..].
Qed.

Lemma table_key_raises (t : record) :
  ¬ has_fields table_key_fields t →
  ∃ f, f ∈ table_key_fields ∧ t !! f = None ∧
       table_key t = Raise (KeyError (VStr f)).
Proof.
  intros Ht. unfold table_key, getitem, table_key_fields in *.
  destruct (t !! "tabschema") as [s|] eqn:Hs; cbn.
  - destruct (t !! "tabname") as [n|] eqn:Hn; cbn.
    + destruct Ht. rewrite !has_fields_cons, Hs, Hn. split_and!; eauto.
      constructor.
    + exists "tabname". split_and!; [right; left|done..].
  - exists "tabschema". split_and!; [left|done..].
Qed.

Lemma group_by_table_fold_raise (tables : list record) e :
  foldl _group_by_table_step (Raise e) tables = Raise e.
Proof. induction tables as [|t tables IH]; [done|]. cbn. apply IH. Qed.

(** X18.  Grouping stops at the first row that lacks a field of the
    qualified key: it raises the [KeyError] of a key field that row lacks,
    whatever rows follow; for procedures, triggers and functions and for
    tables. *)
Theorem X18_grouping_raises_at_first_incomplete_row
    (good : list record) (bad : record) (rest : list record) :
  (∀ k,
     Forall (has_fields (key_fields k)) good →
     ¬ has_fields (key_fields k) bad →
     ∃ f, f ∈ key_fields k ∧ bad !! f = None ∧
          group_by k (good ++ bad :: rest) = Raise (KeyError (VStr f))) ∧
  (Forall (has_fields table_key_fields) good →
   ¬ has_fields table_key_fields bad →
   ∃ f, f ∈ table_key_fields ∧ bad !! f = None ∧
        _group_by_table (good ++ bad :: rest) = Raise (KeyError (VStr f))).
Proof.
  split.
  - intros k Hgood Hbad.
    destruct (scalar_key_raises k bad Hbad) as (f & Hf & Hnone & Hkey).
    exists f. split_and!; [done..|].
    destruct (dict_fold (scalar_key k) good ∅) as (g & Hg & _).
    { eapply Forall_impl; [exact Hgood|]. intros r. apply scalar_key_ok. }
    unfold group_by, dict_of_records. rewrite foldl_app, Hg. cbn [foldl].
    unfold dict_step at 2. cbn. rewrite Hkey. cbn. apply dict_fold_raise.
  - intros Hgood Hbad.
    destruct (table_key_raises bad Hbad) as (f & Hf & Hnone & Hkey).
    exists f. split_and!; [done..|].
    destruct (group_by_table_fold good ∅ Hgood) as (g & Hg & _).
    unfold _group_by_table. rewrite foldl_app, Hg. cbn [foldl].
    unfold _group_by_table_step at 2. cbn. rewrite Hkey. cbn.
    apply group_by_table_fold_raise.
Qed.

Lemma X18_grouping_raises_at_first_incomplete_row_witness :
  (∃ f, f ∈ key_fields Procedure ∧ (∅ : record) !! f = None ∧
        group_by Procedure ([sample_proc "SQL"] ++ ∅ :: [sample_proc "C"])
          = Raise (KeyError (VStr f))) ∧
  (∃ f, f ∈ table_key_fields ∧ narrow_table_row !! f = None ∧
        _group_by_table (wide_table_rows ++ narrow_table_row :: wide_table_rows)
          = Raise (KeyError (VStr f))).
Proof.
  destruct (X18_grouping_raises_at_first_incomplete_row
              [sample_proc "SQL"] ∅ [sample_proc "C"]) as [Hscalar _].
  destruct (X18_grouping_raises_at_first_incomplete_row
              wide_table_rows narrow_table_row wide_table_rows) as [_ Htables].
  split.
  - apply Hscalar; by_evaluation.
  - apply Htables; by_evaluation.
Defined.
